(** * Atrium segmentation: the Dice loss, the Lightning steps and the
      checkpoint policy of [04-Train.ipynb]

    The notebook computes on torch tensors.  A tensor is modelled by its shape
    and its row-major entries; the entry type (torch's dtype) is a type class
    with two instances: exact rational arithmetic, and IEEE 754 binary32 (the
    dtype the training step uses: [mask.float()]), built on the Standard
    Library's [SpecFloat] with precision 24 and maximal exponent 128. *)

From Stdlib Require Import String.
From Stdlib Require Import List ZArith QArith Qabs Qminmax Lia Lqa Bool.
From Stdlib Require Import Floats.SpecFloat.
From Stdlib Require Import Sorting.Permutation Sorting.Sorted.
Import ListNotations.

Set Implicit Arguments.

(** ** Exceptions and results *)

(** The exceptions the modelled code can raise.  torch's message for the first
    is "The size of tensor a (n) must match the size of tensor b (m) at
    non-singleton dimension d"; the second is Python's index error on
    [t[0]] for a tensor without a first entry; the third is matplotlib's
    "Invalid shape (...) for image data". *)
Inductive exn : Type :=
| SizeMismatch (size_a size_b : nat) (dim : nat)
| IndexError (index : nat) (size : nat)
| TypeError (image_shape : list nat).

Inductive result (A : Type) : Type :=
| Ok (a : A)
| Raise (e : exn).

Arguments Ok {A} a.
Arguments Raise {A} e.

Definition bind {A B : Type} (r : result A) (k : A -> result B) : result B :=
  match r with
  | Ok a => k a
  | Raise e => Raise e
  end.

Notation "x <- r ;; k" := (bind r (fun x => k))
  (at level 61, r at next level, right associativity).

Definition is_ok {A : Type} (r : result A) : bool :=
  match r with Ok _ => true | Raise _ => false end.

(** ** Entry types *)

(** What the notebook needs of a dtype: the arithmetic of [*], [+], [-], [/],
    the comparison [>], integer literals ([2], [1], [0]) and the two float
    literals [1e-8] and [0.5]. *)
Class Dtype (F : Type) : Type := {
  add : F -> F -> F;
  sub : F -> F -> F;
  mul : F -> F -> F;
  div : F -> F -> F;
  gtb : F -> F -> bool;
  eqb0 : F -> bool;
  of_int : Z -> F;
  lit_1e_8 : F;
  lit_0_5 : F
}.

(** Exact arithmetic. *)
#[export] Instance Q_dtype : Dtype Q := {
  add := Qplus;
  sub := Qminus;
  mul := Qmult;
  div := Qdiv;
  gtb := fun x y => negb (Qle_bool x y);
  eqb0 := fun x => Qeq_bool x 0;
  of_int := inject_Z;
  lit_1e_8 := 1 # 100000000;
  lit_0_5 := 1 # 2
}.

(** IEEE 754 binary32, round to nearest even. *)
Module F32.

Definition prec : Z := 24.
Definition emax : Z := 128.

Definition t : Type := spec_float.

Definition of_Z (z : Z) : t := binary_normalize prec emax z 0 false.

Definition fadd : t -> t -> t := SFadd prec emax.
Definition fsub : t -> t -> t := SFsub prec emax.
Definition fmul : t -> t -> t := SFmul prec emax.
Definition fdiv : t -> t -> t := SFdiv prec emax.

(** [x > y]; false as soon as one side is NaN. *)
Definition fgtb (x y : t) : bool := SFltb y x.

(** The float nearest to 1e-8: both 1 and 10^8 are binary32 numbers, and
    the division rounds once. *)
Definition f1e_8 : t := Eval vm_compute in fdiv (of_Z 1) (of_Z 100000000).

Definition f0_5 : t := Eval vm_compute in fdiv (of_Z 1) (of_Z 2).

Definition is_nan (x : t) : bool :=
  match x with S754_nan => true | _ => false end.

Definition is_finite (x : t) : bool :=
  match x with S754_zero _ | S754_finite _ _ _ => true | _ => false end.

(** The rational a finite float stands for (0 for the others). *)
Definition to_Q (x : t) : Q :=
  match x with
  | S754_finite s m e =>
      let v := match e with
               | Zneg p => Zpos m # Pos.pow 2 p
               | _ => inject_Z (Zpos m * 2 ^ e)
               end in
      if s then Qopp v else v
  | _ => 0
  end.

End F32.

#[export] Instance F32_dtype : Dtype F32.t := {
  add := F32.fadd;
  sub := F32.fsub;
  mul := F32.fmul;
  div := F32.fdiv;
  gtb := F32.fgtb;
  eqb0 := fun x => SFeqb x (S754_zero false);
  of_int := F32.of_Z;
  lit_1e_8 := F32.f1e_8;
  lit_0_5 := F32.f0_5
}.

(** ** Tensors *)

Record tensor (A : Type) : Type := mkTensor {
  shape : list nat;
  data : list A
}.

Definition numel_of (s : list nat) : nat := fold_right Nat.mul 1%nat s.

(** A tensor has as many entries as its shape says. *)
Definition wf_tensor {A : Type} (x : tensor A) : Prop :=
  length (data x) = numel_of (shape x).

Definition tensor_map {A B : Type} (f : A -> B) (x : tensor A) : tensor B :=
  mkTensor (shape x) (map f (data x)).

(** [x[0]]: the first sub-tensor along the leading dimension. *)
Definition index0 {A : Type} (x : tensor A) : result (tensor A) :=
  match shape x with
  | [] => Raise (IndexError 0 0)
  | O :: _ => Raise (IndexError 0 0)
  | S _ :: s => Ok (mkTensor s (firstn (numel_of s) (data x)))
  end.

(** [x[0][0]] *)
Definition index00 {A : Type} (x : tensor A) : result (tensor A) :=
  y <- index0 x ;; index0 y.

(** [x.unsqueeze(0)] *)
Definition unsqueeze0 {A : Type} (x : tensor A) : tensor A :=
  mkTensor (1%nat :: shape x) (data x).

(** The shapes [imshow] takes for image data: two dimensions, or three with
    a last dimension of 1, 3 or 4. *)
Definition valid_image_shape (s : list nat) : bool :=
  match s with
  | [_; _] => true
  | [_; _; c] => Nat.eqb c 1 || Nat.eqb c 3 || Nat.eqb c 4
  | _ => false
  end.

(** [axis.imshow(x)]: for the caller, matplotlib's check of the shape of the
    image data, which raises "Invalid shape ... for image data" on anything
    else. *)
Definition imshow {A : Type} (x : tensor A) : result unit :=
  if valid_image_shape (shape x) then Ok tt else Raise (TypeError (shape x)).

(** [np.ma.masked_where(x == 0, x)]: the entries equal to zero are masked
    out ([None]), the others are kept. *)
Definition masked_where_eq0 {A : Type} (is0 : A -> bool) (x : tensor A)
  : tensor (option A) :=
  tensor_map (fun v => if is0 v then None else Some v) x.

Section Torch.

Context {F : Type} `{Dtype F}.

(** [torch.flatten]: the entries in row-major order, as a 1-D tensor; a 1-D
    tensor is represented by the list of its entries. *)
Definition flatten (x : tensor F) : list F := data x.

Fixpoint map2 (f : F -> F -> F) (a b : list F) : list F :=
  match a, b with
  | x :: a', y :: b' => f x y :: map2 f a' b'
  | _, _ => []
  end.

(** [a * b] on 1-D tensors, with torch's broadcasting: equal sizes multiply
    entry by entry, a size-1 operand is stretched over the other one, and
    any other pair of sizes raises. *)
Definition mul_1d (a b : list F) : result (list F) :=
  if Nat.eqb (length a) (length b) then Ok (map2 mul a b)
  else match a, b with
       | [x], _ => Ok (map (fun y => mul x y) b)
       | _, [y] => Ok (map (fun x => mul x y) a)
       | _, _ => Raise (SizeMismatch (length a) (length b) 0)
       end.

(** [x.sum()]: the entries accumulated from zero in storage order.  torch
    does not fix the order in which it adds; in exact arithmetic the order is
    immaterial, and the binary32 facts below are stated on inputs whose
    partial sums are exact, or hold for any fixed order. *)
Definition sum (a : list F) : F := fold_left add a (of_int 0).

(** [x.float()]: the tensors of this model already carry the dtype of the
    predictions, so the cast leaves them as they are. *)
Definition float (x : tensor F) : tensor F := x.

(** [x > c] for a scalar [c]: a boolean tensor of the same shape. *)
Definition gt_scalar (x : tensor F) (c : F) : tensor bool :=
  tensor_map (fun v => gtb v c) x.

End Torch.

(** ** The Dice loss *)

Module DiceLoss.
Section DiceLoss.

Context {F : Type} `{Dtype F}.

(** The denominator of [forward], on the flattened inputs. *)
Definition denum (pred mask : list F) : F :=
  add (add (sum pred) (sum mask)) lit_1e_8.

Definition forward (pred mask : tensor F) : result F :=
  let pred := flatten pred in
  let mask := flatten mask in
  prod <- mul_1d pred mask ;;
  let counter := sum prod in
  let denum := add (add (sum pred) (sum mask)) lit_1e_8 in
  let dice := div (mul (of_int 2) counter) denum in
  Ok (sub (of_int 1) dice).

End DiceLoss.
End DiceLoss.

(** ** The Lightning module *)

Module AtriumSegmentation.
Section AtriumSegmentation.

Context {F : Type} `{Dtype F}.

(** The network of [model.py] and [torch.sigmoid], which the notebook only
    calls. *)
Variable UNet : tensor F -> tensor F.
Variable sigmoid : F -> F.

(** The figure [log_images] draws: on each axis the image [mri[0][0]] under
    a masked overlay, the ground truth on the left and the thresholded
    prediction on the right. *)
Record figure : Type := mkFigure {
  axis0_image : tensor F;
  axis0_overlay : tensor (option F);
  axis1_image : tensor F;
  axis1_overlay : tensor (option bool)
}.

(** What a step sends out: [self.log(name, value)] and
    [self.logger.experiment.add_figure(tag, fig, global_step)]. *)
Inductive event : Type :=
| Log (name : string) (value : F)
| AddFigure (tag : string) (fig : figure) (step : Z).

Record module_state : Type := mkState {
  global_step : Z;
  emitted : list event
}.

(** Steps read and extend the module's state and may raise. *)
Definition M (A : Type) : Type := module_state -> result (A * module_state).

Definition ret {A : Type} (a : A) : M A := fun st => Ok (a, st).

Definition bindM {A B : Type} (m : M A) (k : A -> M B) : M B :=
  fun st => match m st with
            | Ok (a, st') => k a st'
            | Raise e => Raise e
            end.

Definition lift {A : Type} (r : result A) : M A :=
  fun st => match r with
            | Ok a => Ok (a, st)
            | Raise e => Raise e
            end.

Definition emit (e : event) : M unit :=
  fun st => Ok (tt, mkState (global_step st) (emitted st ++ [e])).

Definition get_global_step : M Z := fun st => Ok (global_step st, st).

Local Notation "x <~ m ;; k" := (bindM m (fun x => k))
  (at level 61, m at next level, right associativity).

Definition forward (x : tensor F) : tensor F :=
  tensor_map sigmoid (UNet x).

Definition log (name : string) (value : F) : M unit := emit (Log name value).

(** Each [imshow] checks the data it is given, so a slice [x[0][0]] that
    exists but is not an image raises a type error before the figure is
    sent. *)
Definition log_images (mri pred mask : tensor F) (name : string) : M unit :=
  let pred := gt_scalar pred lit_0_5 in
  image0 <~ lift (index00 mri) ;;
  _ <~ lift (imshow image0) ;;
  mask00 <~ lift (index00 mask) ;;
  let mask_0 := masked_where_eq0 eqb0 mask00 in
  _ <~ lift (imshow mask_0) ;;
  image1 <~ lift (index00 mri) ;;
  _ <~ lift (imshow image1) ;;
  pred00 <~ lift (index00 pred) ;;
  let mask_1 := masked_where_eq0 negb pred00 in
  _ <~ lift (imshow mask_1) ;;
  let fig := mkFigure image0 mask_0 image1 mask_1 in
  step <~ get_global_step ;;
  emit (AddFigure name fig step).

Definition training_step (batch : tensor F * tensor F) (batch_idx : Z)
  : M F :=
  let '(mri, mask) := batch in
  let mask := float mask in
  let pred := forward mri in
  loss <~ lift (DiceLoss.forward pred mask) ;;
  _ <~ log "Train Dice" loss ;;
  _ <~ (if (batch_idx mod 50 =? 0)%Z
        then log_images mri pred mask "Train"
        else ret tt) ;;
  ret loss.

Definition validation_step (batch : tensor F * tensor F) (batch_idx : Z)
  : M F :=
  let '(mri, mask) := batch in
  let mask := float mask in
  let pred := forward mri in
  loss <~ lift (DiceLoss.forward pred mask) ;;
  _ <~ log "Val Dice" loss ;;
  _ <~ (if (batch_idx mod 2 =? 0)%Z
        then log_images mri pred mask "Val"
        else ret tt) ;;
  ret loss.

(** What a step leaves behind, as the specification describes it: the loss of
    the prediction against the mask is returned, the global step is untouched,
    and the step has sent exactly one scalar under [channel], followed by one
    figure under [tag] when [gate] holds and by nothing otherwise. *)
Definition step_outcome (channel tag : string) (gate : bool)
    (mri mask : tensor F) (st : module_state) (loss : F)
    (st' : module_state) : Prop :=
  DiceLoss.forward (forward mri) mask = Ok loss
  /\ global_step st' = global_step st
  /\ exists figs,
      emitted st' = emitted st ++ Log channel loss :: figs
      /\ if gate
         then exists fig, figs = [AddFigure tag fig (global_step st)]
         else figs = [].

End AtriumSegmentation.
End AtriumSegmentation.

(** ** Slice-by-slice inference *)

Section Inference.

Context {F : Type} `{Dtype F}.

(** The preprocessed scan: a three-dimensional array, stored row-major,
    whose last axis runs over the sagittal slices. *)
Record volume : Type := mkVolume {
  vol_h : nat;
  vol_w : nat;
  vol_d : nat;
  voxels : list F
}.

(** [standardized_scan[:,:,i]] *)
Definition slice_at (scan : volume) (i : nat) : tensor F :=
  mkTensor [vol_h scan; vol_w scan]
    (map (fun k => nth (k * vol_d scan + i) (voxels scan) (of_int 0))
         (seq 0 (vol_h scan * vol_w scan))).

(** The probability map the loop gets for slice [i]:
    [model(torch.tensor(slice).unsqueeze(0).unsqueeze(0))[0][0]]. *)
Definition slice_probabilities (model : tensor F -> tensor F) (scan : volume)
    (i : nat) : result (tensor F) :=
  index00 (model (unsqueeze0 (unsqueeze0 (slice_at scan i)))).

(** The body of the loop for the slices [todo] still to do; [preds] is the
    list built so far. *)
Fixpoint inference_from (model : tensor F -> tensor F) (scan : volume)
    (todo : list nat) (preds : list (tensor bool))
  : result (list (tensor bool)) :=
  match todo with
  | [] => Ok preds
  | i :: rest =>
      let slice := slice_at scan i in
      pred <- index00 (model (unsqueeze0 (unsqueeze0 slice))) ;;
      let pred := gt_scalar pred lit_0_5 in
      inference_from model scan rest (preds ++ [pred])
  end.

Definition inference (model : tensor F -> tensor F) (scan : volume)
  : result (list (tensor bool)) :=
  inference_from model scan (seq 0 (vol_d scan)) [].

End Inference.

(** ** Checkpoint selection *)

Inductive monitor_mode : Type := Min | Max.

Record ModelCheckpoint : Type := mkModelCheckpoint {
  monitor : string;
  save_top_k : nat;
  mode : monitor_mode
}.

Definition checkpoint_callback : ModelCheckpoint :=
  mkModelCheckpoint "Val Dice" 10 Min.

Module Checkpoint.

(** A candidate: the epoch it was taken after and the monitored value; the
    model state saved with it plays no part in the selection. *)
Record record : Type := mkRecord {
  epoch : nat;
  metric : Q
}.

(** Lower is better. *)
Definition improves (c w : record) : bool :=
  negb (Qle_bool (metric w) (metric c)).

Fixpoint insert (c : record) (l : list record) : list record :=
  match l with
  | [] => [c]
  | x :: l' => if improves c x then c :: l else x :: insert c l'
  end.

Definition worst (l : list record) : option record := last (map Some l) None.

Definition evict (K : nat) (l : list record) : list record :=
  if (K <? length l)%nat then removelast l else l.

(** Modelled from the spec: the selection rule of Lightning's
    [ModelCheckpoint], which the notebook configures and does not define.
    The retained list is ranked by the monitored value, lowest first; a
    candidate is inserted in order when fewer than [K] are retained or when
    it improves upon the worst retained one, and the worst is evicted if the
    list then exceeds [K]; otherwise the candidate is discarded. *)
Definition on_validation_end (K : nat) (retained : list record) (c : record)
  : list record :=
  let accepted :=
    (length retained <? K)%nat
    || match worst retained with
       | Some w => improves c w
       | None => false
       end in
  if accepted then evict K (insert c retained) else retained.

Definition run (K : nat) (candidates : list record) : list record :=
  fold_left (on_validation_end K) candidates [].

(** All candidates ranked, lowest monitored value first. *)
Definition ranked (candidates : list record) : list record :=
  fold_left (fun l c => insert c l) candidates [].

Definition le (a b : record) : Prop := metric a <= metric b.

Definition lt (a b : record) : Prop := metric a < metric b.

(** No two candidates have the same monitored value. *)
Definition distinct_metrics (l : list record) : Prop :=
  NoDup (map (fun c => Qred (metric c)) l).

(** The candidates of a run, one per validation epoch. *)
Definition of_metrics (ms : list Q) : list record :=
  map (fun p => mkRecord (fst p) (snd p)) (combine (seq 0 (length ms)) ms).

End Checkpoint.

(** ** The Dice loss as the specification writes it *)

(** A 1-D tensor from its entries. *)
Definition tensor_1d {A : Type} (l : list A) : tensor A :=
  mkTensor [length l] l.

Definition tensor_f32 (l : list Z) : tensor F32.t :=
  tensor_1d (map F32.of_Z l).

(** The binary32 mask of [n] ones. *)
Definition ones32 (n : nat) : tensor F32.t :=
  tensor_1d (repeat (F32.of_Z 1) n).

Definition is_plus_zero (r : result F32.t) : bool :=
  match r with
  | Ok (S754_zero false) => true
  | _ => false
  end.

Module Spec.

(** [big_sum n f] is the sum of [f i] over [0 <= i < n]. *)
Fixpoint big_sum (n : nat) (f : nat -> Q) : Q :=
  match n with
  | O => 0
  | S k => big_sum k f + f k
  end.

Definition entry (x : list Q) (i : nat) : Q := nth i x 0.

Definition epsilon : Q := 1 # 100000000.

Definition dice_loss (P M : list Q) : Q :=
  let n := length P in
  let intersection := big_sum n (fun i => entry P i * entry M i) in
  let denominator := big_sum n (entry P) + big_sum n (entry M) + epsilon in
  let dice_score := (2 * intersection) / denominator in
  1 - dice_score.

End Spec.

(** ** Classes of inputs *)

Definition in_unit (x : Q) : Prop := 0 <= x /\ x <= 1.

Definition binary (x : Q) : Prop := x == 0 \/ x == 1.

Definition is_zero (x : Q) : Prop := x == 0.

(** A binary32 zero of either sign. *)
Definition is_zero32 (x : F32.t) : Prop := exists s, x = S754_zero s.

(** A batch of single images as the data loaders produce it: samples,
    channels, rows and columns, none of them empty. *)
Definition image_batch {A : Type} (x : tensor A) : Prop :=
  exists n c h w, shape x = [S n; S c; S h; S w].

(** [x[0][0]] exists and [imshow] takes it. *)
Definition drawable {A : Type} (x : tensor A) : Prop :=
  exists y, index00 x = Ok y /\ valid_image_shape (shape y) = true.

(** The same binary32 datum, field by field. *)
Definition same32 (x y : F32.t) : bool :=
  match x, y with
  | S754_zero a, S754_zero b => Bool.eqb a b
  | S754_infinity a, S754_infinity b => Bool.eqb a b
  | S754_nan, S754_nan => true
  | S754_finite a m e, S754_finite b m' e' =>
      Bool.eqb a b && Pos.eqb m m' && Z.eqb e e'
  | _, _ => false
  end.

(** A binary32 entry that is 0 or 1. *)
Definition binary32 (x : F32.t) : Prop := x = F32.of_Z 0 \/ x = F32.of_Z 1.

(** The number of ones of a binary32 mask. *)
Definition cardinal32 (l : list F32.t) : nat :=
  length (filter (fun x => SFeqb x (F32.of_Z 1)) l).

(** A batch of images: at least two dimensions, the first two not empty, so
    that [x[0][0]] exists. *)
Definition batched {A : Type} (x : tensor A) : Prop :=
  exists n c s, shape x = S n :: S c :: s.

(** ** Evaluation on the validation set and preparation of a scan *)

(** numpy's errors: [min] or [max] of an array without entries ("zero-size
    array to reduction operation ... which has no identity"), and [np.array]
    on arrays of different shapes ("inhomogeneous shape"). *)
Inductive np_exn : Type :=
| ZeroSizeReduction (operation : string)
| InhomogeneousShape.

Inductive np_result (A : Type) : Type :=
| NpOk (a : A)
| NpRaise (e : np_exn).

Arguments NpOk {A} a.
Arguments NpRaise {A} e.

(** numpy computes in binary64; its reductions are modelled in exact
    arithmetic. *)
Module np.

Definition min (l : list Q) : np_result Q :=
  match l with
  | [] => NpRaise (ZeroSizeReduction "minimum")
  | x :: l' => NpOk (fold_left Qmin l' x)
  end.

Definition max (l : list Q) : np_result Q :=
  match l with
  | [] => NpRaise (ZeroSizeReduction "maximum")
  | x :: l' => NpOk (fold_left Qmax l' x)
  end.

Definition mean (l : list Q) : Q :=
  sum l / inject_Z (Z.of_nat (length l)).

(** [np.std]: the root of the mean squared deviation.  A square root has no
    exact rational value in general; the root function is an argument, and
    the properties below hold for every choice of it. *)
Definition std (sqrt : Q -> Q) (l : list Q) : Q :=
  sqrt (mean (map (fun x => (x - mean l) * (x - mean l)) l)).

(** [np.array(ts)] on a list of arrays: they are stacked along a new leading
    axis. *)
Definition array {A : Type} (ts : list (tensor A)) : np_result (tensor A) :=
  match ts with
  | [] => NpOk (mkTensor [0%nat] [])
  | t :: _ =>
      if forallb
           (fun u => if list_eq_dec Nat.eq_dec (shape u) (shape t)
                     then true else false) ts
      then NpOk (mkTensor (length ts :: shape t) (concat (map (@data A) ts)))
      else NpRaise InhomogeneousShape
  end.

End np.

Section Volumes.

Context {F : Type} `{Dtype F}.

Definition wf_volume (v : @volume F) : Prop :=
  length (voxels v) = (vol_h v * vol_w v * vol_d v)%nat.

(** [v[i, j, k]] *)
Definition voxel (v : @volume F) (i j k : nat) : F :=
  nth ((i * vol_w v + j) * vol_d v + k) (voxels v) (of_int 0).

(** [subject_mri[32:-32, 32:-32]]: on an axis of [n] entries the slice
    [32:-32] keeps the indices from 32 to [n - 33], none when [n <= 64]. *)
Definition crop (subject_mri : @volume F) : @volume F :=
  let h := (vol_h subject_mri - 64)%nat in
  let w := (vol_w subject_mri - 64)%nat in
  mkVolume h w (vol_d subject_mri)
    (flat_map
       (fun i =>
          flat_map
            (fun j => map (fun k => voxel subject_mri i j k)
                          (seq 0 (vol_d subject_mri)))
            (seq 32 w))
       (seq 32 h)).

End Volumes.

Definition normalize (sqrt : Q -> Q) (full_volume : @volume Q) : @volume Q :=
  let mu := np.mean (voxels full_volume) in
  let std := np.std sqrt (voxels full_volume) in
  mkVolume (vol_h full_volume) (vol_w full_volume) (vol_d full_volume)
    (map (fun x => (x - mu) / std) (voxels full_volume)).

Definition standardize (normalized_data : @volume Q)
  : np_result (@volume Q) :=
  match np.min (voxels normalized_data) with
  | NpRaise e => NpRaise e
  | NpOk lo =>
      match np.max (voxels normalized_data) with
      | NpRaise e => NpRaise e
      | NpOk hi =>
          NpOk (mkVolume (vol_h normalized_data) (vol_w normalized_data)
                  (vol_d normalized_data)
                  (map (fun x => (x - lo) / (hi - lo))
                       (voxels normalized_data)))
      end
  end.

(** The scan as the inference loop receives it. *)
Definition standardized_scan (sqrt : Q -> Q) (subject_mri : @volume Q)
  : np_result (@volume Q) :=
  standardize (normalize sqrt (crop subject_mri)).

Section Evaluation.

Context {F : Type} `{Dtype F}.

(** The loop over the validation set: one prediction per sample, on the
    sample with a leading axis added; [val_dataset] stands for the
    [CardiacDataset] of [dataset.py]. *)
Definition predict_all (model : tensor F -> tensor F)
    (val_dataset : list (tensor F * tensor F))
  : list (tensor F) * list (tensor F) :=
  fold_left
    (fun acc sample =>
       let '(preds, labels) := acc in
       let '(slice, label) := sample in
       let pred := model (unsqueeze0 slice) in
       (preds ++ [pred], labels ++ [label]))
    val_dataset ([], []).

(** The prediction the loop stores for one sample. *)
Definition prediction (model : tensor F -> tensor F)
    (sample : tensor F * tensor F) : tensor F :=
  model (unsqueeze0 (fst sample)).

(** [1 - model.loss_fn(preds, labels)] *)
Definition dice_score (preds labels : tensor F) : result F :=
  loss <- DiceLoss.forward preds labels ;;
  Ok (sub (of_int 1) loss).

(** [1 - DiceLoss()(preds, labels.unsqueeze(0).float())] *)
Definition dice_score_unsqueezed (preds labels : tensor F) : result F :=
  loss <- DiceLoss.forward preds (float (unsqueeze0 labels)) ;;
  Ok (sub (of_int 1) loss).

End Evaluation.

(** The number of ones of a binary mask. *)
Definition cardinal (l : list Q) : nat :=
  length (filter (fun x => Qeq_bool x 1) l).

(** The number of positions where both masks are one. *)
Fixpoint overlap (a b : list Q) : nat :=
  match a, b with
  | x :: a', y :: b' =>
      ((if Qeq_bool x 1 && Qeq_bool y 1 then 1 else 0) + overlap a' b')%nat
  | _, _ => 0%nat
  end.

(** The Dice loss as the notebook's text defines it on sets,
    1 - 2 |A n B| / (|A| + |B|), with the 1e-8 of the code in the
    denominator. *)
Definition set_dice_loss (a b : list Q) : Q :=
  1 - (2 * inject_Z (Z.of_nat (overlap a b)))
      / (inject_Z (Z.of_nat (cardinal a)) + inject_Z (Z.of_nat (cardinal b))
         + Spec.epsilon).

(** * Properties *)

(** ** Sums of rationals *)

Lemma fold_add_acc (l : list Q) (a : Q) :
  fold_left Qplus l a == a + fold_left Qplus l 0.
Proof.
  revert a; induction l as [|x l IH]; intros a; simpl.
  - ring.
  - rewrite (IH (a + x)), (IH (0 + x)). ring.
Qed.

(** Unfolds the rational instance of the dtype operations. *)
Ltac exact_arith :=
  cbv [sum add sub mul div gtb eqb0 of_int lit_1e_8 lit_0_5 Q_dtype
       DiceLoss.denum] in *.

Lemma sum_nil : sum (F := Q) [] == 0.
Proof. reflexivity. Qed.

Lemma sum_cons (x : Q) (l : list Q) : sum (x :: l) == x + sum l.
Proof.
  exact_arith. cbn [fold_left]. rewrite fold_add_acc.
  change (inject_Z 0) with 0. ring.
Qed.

Lemma big_sum_ext (n : nat) (f g : nat -> Q) :
  (forall i, (i < n)%nat -> f i == g i) ->
  Spec.big_sum n f == Spec.big_sum n g.
Proof.
  induction n as [|n IH]; intros E; simpl.
  - reflexivity.
  - rewrite IH by (intros; apply E; lia). rewrite (E n) by lia. reflexivity.
Qed.

Lemma big_sum_shift (n : nat) (f : nat -> Q) :
  Spec.big_sum (S n) f == f O + Spec.big_sum n (fun i => f (S i)).
Proof.
  induction n as [|n IH].
  - simpl. ring.
  - change (Spec.big_sum (S (S n)) f) with (Spec.big_sum (S n) f + f (S n)).
    rewrite IH. simpl. ring.
Qed.

Lemma sum_big_sum (l : list Q) :
  sum l == Spec.big_sum (length l) (Spec.entry l).
Proof.
  induction l as [|x l IH].
  - reflexivity.
  - rewrite sum_cons, IH. cbn [length]. rewrite big_sum_shift.
    reflexivity.
Qed.

Lemma sum_map2_big_sum (a b : list Q) :
  length a = length b ->
  sum (map2 Qmult a b)
  == Spec.big_sum (length a) (fun i => Spec.entry a i * Spec.entry b i).
Proof.
  revert b; induction a as [|x a IH]; intros [|y b] L; try discriminate.
  - reflexivity.
  - cbn [map2 length]. rewrite sum_cons, big_sum_shift, IH by (simpl in L; lia).
    reflexivity.
Qed.

(** ** The shape of [forward] *)

Lemma mul_1d_same {F : Type} `{Dtype F} (a b : list F) :
  length a = length b -> mul_1d a b = Ok (map2 mul a b).
Proof.
  intros L. unfold mul_1d. rewrite L, Nat.eqb_refl. reflexivity.
Qed.

Lemma same_shape_same_length {A : Type} (x y : tensor A) :
  wf_tensor x -> wf_tensor y -> shape x = shape y ->
  length (data x) = length (data y).
Proof.
  unfold wf_tensor. intros -> -> ->. reflexivity.
Qed.

Lemma forward_same_length {F : Type} `{Dtype F} (P M : tensor F) :
  length (data P) = length (data M) ->
  DiceLoss.forward P M
  = Ok (sub (of_int 1)
          (div (mul (of_int 2) (sum (map2 mul (data P) (data M))))
               (DiceLoss.denum (data P) (data M)))).
Proof.
  intros L. unfold DiceLoss.forward, flatten. rewrite (mul_1d_same _ _ L).
  reflexivity.
Qed.

Lemma forward_exact (P M : tensor Q) :
  length (data P) = length (data M) ->
  DiceLoss.forward P M
  = Ok (1 - (2 * sum (map2 Qmult (data P) (data M)))
            / (sum (data P) + sum (data M) + Spec.epsilon)).
Proof.
  intros L. rewrite (forward_same_length _ _ L). reflexivity.
Qed.

(** ** C1: the formula *)

(** C1. On equal-shaped arrays [forward] returns one minus twice the sum of
    the entrywise products over the sum of both arrays' sums plus 1e-8, as the
    specification writes it with indexed sums; on P = [1,1,0,0] and
    M = [1,0,0,0] the loss is 1/3 up to 1e-8 in exact arithmetic and up to
    1e-7 in binary32. *)
Theorem forward_is_dice_formula :
  (forall P M : tensor Q,
      wf_tensor P -> wf_tensor M -> shape P = shape M ->
      exists v, DiceLoss.forward P M = Ok v
                /\ v == Spec.dice_loss (data P) (data M))
  /\ (exists v,
         DiceLoss.forward (tensor_1d [1; 1; 0; 0]) (tensor_1d [1; 0; 0; 0])
         = Ok v
         /\ Qabs (v - (1 # 3)) <= 1 # 100000000)
  /\ (exists x,
         DiceLoss.forward (tensor_f32 [1; 1; 0; 0]%Z)
                          (tensor_f32 [1; 0; 0; 0]%Z) = Ok x
         /\ F32.is_finite x = true
         /\ Qabs (F32.to_Q x - (1 # 3)) <= 1 # 10000000).
Proof.
  split; [|split].
  - intros P M WP WM S.
    pose proof (same_shape_same_length WP WM S) as L.
    eexists; split; [apply (forward_exact _ _ L)|].
    unfold Spec.dice_loss.
    rewrite (sum_map2_big_sum _ _ L), (sum_big_sum (data P)),
      (sum_big_sum (data M)), <- L.
    reflexivity.
  - eexists; split; [vm_compute; reflexivity|].
    vm_compute. intros E; discriminate E.
  - eexists; split; [vm_compute; reflexivity|].
    split; [reflexivity|].
    vm_compute. intros E; discriminate E.
Qed.

Lemma forward_is_dice_formula_witness :
  exists v,
    DiceLoss.forward (mkTensor [2; 2]%nat [1; 1; 0; 0])
                     (mkTensor [2; 2]%nat [1; 0; 0; 0]) = Ok v
    /\ v == Spec.dice_loss [1; 1; 0; 0] [1; 0; 0; 0].
Proof.
  apply (proj1 forward_is_dice_formula
           (mkTensor [2; 2]%nat [1; 1; 0; 0])
           (mkTensor [2; 2]%nat [1; 0; 0; 0]));
    reflexivity.
Defined.

(** ** Bounds in exact arithmetic *)

Lemma sum_nonneg (l : list Q) :
  Forall (fun x => 0 <= x) l -> 0 <= sum l.
Proof.
  induction 1 as [|x l Hx _ IH].
  - rewrite sum_nil. lra.
  - rewrite sum_cons. lra.
Qed.

Lemma map2_nonneg (a b : list Q) :
  Forall (fun x => 0 <= x) a -> Forall (fun x => 0 <= x) b ->
  Forall (fun x => 0 <= x) (map2 Qmult a b).
Proof.
  intros Ha; revert b; induction Ha as [|x a Hx _ IH]; intros b Hb.
  - constructor.
  - destruct Hb as [|y b Hy Hb]; cbn [map2]; constructor.
    + apply Qmult_le_0_compat; assumption.
    + apply IH; assumption.
Qed.

Lemma in_unit_nonneg (l : list Q) :
  Forall in_unit l -> Forall (fun x => 0 <= x) l.
Proof.
  apply Forall_impl. intros x [H _]; exact H.
Qed.

Lemma twice_product_le (x y : Q) :
  in_unit x -> in_unit y -> 2 * (x * y) <= x + y.
Proof.
  intros [Hx0 Hx1] [Hy0 Hy1]. nra.
Qed.

Lemma twice_overlap_le (a b : list Q) :
  Forall in_unit a -> Forall in_unit b -> length a = length b ->
  2 * sum (map2 Qmult a b) <= sum a + sum b.
Proof.
  intros Ha; revert b; induction Ha as [|x a Hx _ IH]; intros b Hb L.
  - destruct b; [|discriminate L]. cbn [map2]. rewrite sum_nil. lra.
  - destruct Hb as [|y b Hy Hb]; [discriminate L|].
    cbn [map2]. rewrite !sum_cons.
    pose proof (twice_product_le Hx Hy).
    pose proof (IH b Hb ltac:(simpl in L; lia)).
    lra.
Qed.

Lemma loss_bounds (c s : Q) :
  0 <= c -> c <= s ->
  0 < s + Spec.epsilon
  /\ 0 < 1 - c / (s + Spec.epsilon)
  /\ 1 - c / (s + Spec.epsilon) <= 1.
Proof.
  intros Hc Hs.
  assert (He : 0 < Spec.epsilon) by reflexivity.
  assert (Hd : 0 < s + Spec.epsilon) by lra.
  assert (H0 : 0 <= c / (s + Spec.epsilon))
    by (apply Qle_shift_div_l; [exact Hd | lra]).
  assert (H1 : c / (s + Spec.epsilon) < 1)
    by (apply Qlt_shift_div_r; [exact Hd | lra]).
  set (q := c / (s + Spec.epsilon)) in *.
  repeat split; lra.
Qed.

Lemma forward_unit_bounds (P M : tensor Q) :
  length (data P) = length (data M) ->
  Forall in_unit (data P) -> Forall in_unit (data M) ->
  exists v, DiceLoss.forward P M = Ok v
            /\ 0 < DiceLoss.denum (data P) (data M)
            /\ 0 < v /\ v <= 1.
Proof.
  intros L HP HM.
  eexists; split; [apply (forward_exact _ _ L)|].
  pose proof (twice_overlap_le HP HM L) as Hle.
  assert (Hc : 0 <= 2 * sum (map2 Qmult (data P) (data M))).
  { pose proof (sum_nonneg (map2_nonneg (in_unit_nonneg HP)
                                        (in_unit_nonneg HM))). lra. }
  destruct (loss_bounds Hc Hle) as (Hd & Hlo & Hhi).
  split; [exact Hd|]. split; [exact Hlo | exact Hhi].
Qed.

Lemma binary_in_unit (l : list Q) : Forall binary l -> Forall in_unit l.
Proof.
  apply Forall_impl. intros x [E|E]; unfold in_unit; rewrite E; lra.
Qed.

Lemma binary_self_overlap (l : list Q) :
  Forall binary l -> sum (map2 Qmult l l) == sum l.
Proof.
  induction 1 as [|x l Hx _ IH].
  - reflexivity.
  - cbn [map2]. rewrite !sum_cons, IH.
    destruct Hx as [E|E]; rewrite E; ring.
Qed.

Lemma binary_sum_ge_1 (l : list Q) :
  Forall binary l -> Exists (fun x => ~ x == 0) l -> 1 <= sum l.
Proof.
  intros Hb He. induction He as [x l Hx | x l _ IH].
  - rewrite sum_cons.
    pose proof (sum_nonneg (in_unit_nonneg (binary_in_unit (Forall_inv_tail Hb)))).
    destruct (Forall_inv Hb) as [E|E]; [contradiction|]. lra.
  - rewrite sum_cons.
    specialize (IH (Forall_inv_tail Hb)).
    destruct (Forall_inv Hb) as [E|E]; lra.
Qed.

Lemma binary_self_loss (X : tensor Q) :
  Forall binary (data X) ->
  exists v, DiceLoss.forward X X = Ok v
            /\ v == Spec.epsilon / (2 * sum (data X) + Spec.epsilon).
Proof.
  intros Hb.
  eexists; split; [apply (forward_exact X X eq_refl)|].
  rewrite (binary_self_overlap Hb).
  pose proof (sum_nonneg (in_unit_nonneg (binary_in_unit Hb))) as H0.
  assert (He : 0 < Spec.epsilon) by reflexivity.
  field. lra.
Qed.

(** ** C2: the range of the loss *)

(** C2, refuted as stated: non-negative entries above 1 take the loss out of
    [0, 1]; on P = M = [2] it is about -1, in exact arithmetic and in
    binary32. *)
Lemma forward_negative_on_twos :
  wf_tensor (tensor_1d [2]) /\ Forall (fun x => 0 <= x) (data (tensor_1d [2]))
  /\ (exists v, DiceLoss.forward (tensor_1d [2]) (tensor_1d [2]) = Ok v
                /\ v < - (9 # 10))
  /\ DiceLoss.forward (tensor_f32 [2]%Z) (tensor_f32 [2]%Z)
     = Ok (F32.of_Z (-1)).
Proof.
  split; [reflexivity|]. split; [repeat constructor; discriminate|].
  split; [|vm_compute; reflexivity].
  eexists; split; [vm_compute; reflexivity|]. reflexivity.
Qed.

(** C2, amended.  On equal-shaped arrays with all entries in [0, 1] the
    denominator is positive, so the division is defined, and the loss lies in
    [0, 1]. *)
Theorem forward_in_unit_interval (P M : tensor Q) :
  wf_tensor P -> wf_tensor M -> shape P = shape M ->
  Forall in_unit (data P) -> Forall in_unit (data M) ->
  exists v, DiceLoss.forward P M = Ok v
            /\ 0 < DiceLoss.denum (data P) (data M)
            /\ 0 <= v /\ v <= 1.
Proof.
  intros WP WM S HP HM.
  destruct (forward_unit_bounds P M (same_shape_same_length WP WM S) HP HM)
    as (v & E & Hd & Hlo & Hhi).
  exists v. repeat split; try assumption. lra.
Qed.

Lemma forward_in_unit_interval_witness :
  exists v,
    DiceLoss.forward (mkTensor [1; 3]%nat [1 # 2; 1; 0])
                     (mkTensor [1; 3]%nat [1; 1; 0]) = Ok v
    /\ 0 < DiceLoss.denum [1 # 2; 1; 0] [1; 1; 0]
    /\ 0 <= v /\ v <= 1.
Proof.
  apply (@forward_in_unit_interval
           (mkTensor [1; 3]%nat [1 # 2; 1; 0])
           (mkTensor [1; 3]%nat [1; 1; 0])).
  - reflexivity.
  - reflexivity.
  - reflexivity.
  - simpl. repeat constructor; discriminate.
  - simpl. repeat constructor; discriminate.
Defined.

(** ** C3: all-zero inputs *)

Lemma sum_zeros (l : list Q) : Forall is_zero l -> sum l == 0.
Proof.
  induction 1 as [|x l Hx _ IH].
  - reflexivity.
  - unfold is_zero in Hx. rewrite sum_cons, IH, Hx. ring.
Qed.

Lemma map2_zeros (a b : list Q) :
  Forall is_zero a -> Forall is_zero (map2 Qmult a b).
Proof.
  intros Ha; revert b; induction Ha as [|x a Hx _ IH]; intros [|y b];
    cbn [map2]; constructor.
  - unfold is_zero in *. rewrite Hx. ring.
  - apply IH.
Qed.

Lemma fold_fadd_zeros32 (l : list F32.t) :
  Forall is_zero32 l -> fold_left F32.fadd l (S754_zero false) = S754_zero false.
Proof.
  induction 1 as [|x l [s ->] _ IH].
  - reflexivity.
  - cbn [fold_left]. destruct s; exact IH.
Qed.

Lemma sum_zeros32 (l : list F32.t) :
  Forall is_zero32 l -> sum l = S754_zero false.
Proof. apply fold_fadd_zeros32. Qed.

Lemma map2_zeros32 (a b : list F32.t) :
  Forall is_zero32 a -> Forall is_zero32 b ->
  Forall is_zero32 (map2 (mul (F := F32.t)) a b).
Proof.
  intros Ha; revert b; induction Ha as [|x a [s ->] _ IH]; intros b Hb.
  - constructor.
  - destruct Hb as [|y b [s' ->] Hb]; cbn [map2]; constructor.
    + exists (xorb s s'). reflexivity.
    + apply IH; assumption.
Qed.

(** C3. On all-zero inputs of equal shape the denominator is the positive
    constant 1e-8 and the loss is 1: exactly 1 in exact arithmetic, and the
    float 1.0 (not NaN) in binary32, whatever the signs of the zeros. *)
Theorem forward_all_zero :
  (forall P M : tensor Q,
      wf_tensor P -> wf_tensor M -> shape P = shape M ->
      Forall is_zero (data P) -> Forall is_zero (data M) ->
      DiceLoss.denum (data P) (data M) == Spec.epsilon
      /\ 0 < DiceLoss.denum (data P) (data M)
      /\ exists v, DiceLoss.forward P M = Ok v /\ v == 1)
  /\ (forall P M : tensor F32.t,
         wf_tensor P -> wf_tensor M -> shape P = shape M ->
         Forall is_zero32 (data P) -> Forall is_zero32 (data M) ->
         DiceLoss.denum (data P) (data M) = F32.f1e_8
         /\ F32.fgtb F32.f1e_8 (F32.of_Z 0) = true
         /\ DiceLoss.forward P M = Ok (F32.of_Z 1)
         /\ F32.is_nan (F32.of_Z 1) = false).
Proof.
  split.
  - intros P M WP WM S HP HM.
    pose proof (same_shape_same_length WP WM S) as L.
    assert (D : DiceLoss.denum (data P) (data M) == Spec.epsilon).
    { change (sum (data P) + sum (data M) + Spec.epsilon == Spec.epsilon).
      rewrite (sum_zeros HP), (sum_zeros HM). ring. }
    split; [exact D|]. split; [rewrite D; reflexivity|].
    eexists; split; [apply (forward_exact _ _ L)|].
    rewrite (sum_zeros (map2_zeros (data M) HP)), (sum_zeros HP),
      (sum_zeros HM).
    reflexivity.
  - intros P M WP WM S HP HM.
    pose proof (same_shape_same_length WP WM S) as L.
    assert (D : DiceLoss.denum (data P) (data M) = F32.f1e_8).
    { unfold DiceLoss.denum.
      rewrite (sum_zeros32 HP), (sum_zeros32 HM). reflexivity. }
    split; [exact D|]. split; [reflexivity|]. split; [|reflexivity].
    rewrite (forward_same_length _ _ L).
    rewrite D, (sum_zeros32 (map2_zeros32 HP HM)). reflexivity.
Qed.

Lemma forward_all_zero_witness :
  (exists v,
      DiceLoss.forward (tensor_1d [0; 0; 0; 0]) (tensor_1d [0; 0; 0; 0]) = Ok v
      /\ v == 1)
  /\ DiceLoss.forward (tensor_f32 [0; 0; 0; 0]%Z) (tensor_f32 [0; 0; 0; 0]%Z)
     = Ok (F32.of_Z 1).
Proof.
  split.
  - apply (proj1 forward_all_zero
             (tensor_1d [0; 0; 0; 0]) (tensor_1d [0; 0; 0; 0]));
      try reflexivity; simpl; repeat constructor.
  - apply (proj2 forward_all_zero
             (tensor_f32 [0; 0; 0; 0]%Z) (tensor_f32 [0; 0; 0; 0]%Z));
      try reflexivity; simpl; repeat constructor; exists false; reflexivity.
Defined.

(** ** C7: symmetry *)

Section Symmetry.

Context {F : Type} `{Dtype F}.
Hypothesis add_comm : forall x y : F, add x y = add y x.
Hypothesis mul_comm : forall x y : F, mul x y = mul y x.

Lemma map2_mul_comm (a b : list F) : map2 mul a b = map2 mul b a.
Proof.
  revert b; induction a as [|x a IH]; intros [|y b]; cbn [map2];
    try reflexivity.
  rewrite (mul_comm x y), (IH b). reflexivity.
Qed.

Lemma forward_comm (P M : tensor F) :
  length (data P) = length (data M) ->
  DiceLoss.forward P M = DiceLoss.forward M P.
Proof.
  intros L.
  rewrite (forward_same_length P M L), (forward_same_length M P (eq_sym L)).
  unfold DiceLoss.denum.
  rewrite (map2_mul_comm (data P) (data M)),
    (add_comm (sum (data P)) (sum (data M))).
  reflexivity.
Qed.

End Symmetry.

Lemma Qplus_comm_eq (x y : Q) : Qplus x y = Qplus y x.
Proof.
  unfold Qplus. f_equal; [ring | apply Pos.mul_comm].
Qed.

Lemma Qmult_comm_eq (x y : Q) : Qmult x y = Qmult y x.
Proof.
  unfold Qmult. f_equal; [ring | apply Pos.mul_comm].
Qed.

Lemma fadd_comm (x y : F32.t) : F32.fadd x y = F32.fadd y x.
Proof.
  destruct x as [sx|sx| |sx mx ex], y as [sy|sy| |sy my ey];
    try reflexivity;
    try (destruct sx, sy; reflexivity).
  unfold F32.fadd, SFadd.
  rewrite (Z.min_comm ey ex), Z.add_comm. reflexivity.
Qed.

Lemma fmul_comm (x y : F32.t) : F32.fmul x y = F32.fmul y x.
Proof.
  destruct x as [sx|sx| |sx mx ex], y as [sy|sy| |sy my ey];
    try reflexivity;
    try (unfold F32.fmul, SFmul; rewrite (xorb_comm sy sx); reflexivity).
  unfold F32.fmul, SFmul.
  rewrite (xorb_comm sy sx), (Pos.mul_comm my mx), (Z.add_comm ey ex).
  reflexivity.
Qed.

(** C7. On equal-shaped arrays [forward pred mask] and [forward mask pred]
    are the same value, in exact arithmetic and, bit for bit, in binary32. *)
Theorem forward_symmetric :
  (forall P M : tensor Q,
      wf_tensor P -> wf_tensor M -> shape P = shape M ->
      DiceLoss.forward P M = DiceLoss.forward M P)
  /\ (forall P M : tensor F32.t,
         wf_tensor P -> wf_tensor M -> shape P = shape M ->
         DiceLoss.forward P M = DiceLoss.forward M P).
Proof.
  split; intros P M WP WM S.
  - apply (@forward_comm Q Q_dtype Qplus_comm_eq Qmult_comm_eq).
    exact (same_shape_same_length WP WM S).
  - apply (@forward_comm F32.t F32_dtype fadd_comm fmul_comm).
    exact (same_shape_same_length WP WM S).
Qed.

Lemma forward_symmetric_witness :
  DiceLoss.forward (tensor_1d [1 # 3; 1; 0]) (tensor_1d [1; 0; 1])
  = DiceLoss.forward (tensor_1d [1; 0; 1]) (tensor_1d [1 # 3; 1; 0])
  /\ DiceLoss.forward (tensor_f32 [3; 1; 0]%Z) (tensor_f32 [1; 0; 1]%Z)
     = DiceLoss.forward (tensor_f32 [1; 0; 1]%Z) (tensor_f32 [3; 1; 0]%Z).
Proof.
  split.
  - apply (proj1 forward_symmetric
             (tensor_1d [1 # 3; 1; 0]) (tensor_1d [1; 0; 1])); reflexivity.
  - apply (proj2 forward_symmetric
             (tensor_f32 [3; 1; 0]%Z) (tensor_f32 [1; 0; 1]%Z)); reflexivity.
Defined.

(** ** C8: self-overlap *)

(** C8, refuted as stated: the array X = [0.5] is not all-zero and its loss
    against itself is about 0.5, in exact arithmetic and in binary32. *)
Lemma forward_self_half :
  ~ (1 # 2) == 0
  /\ (exists v, DiceLoss.forward (tensor_1d [1 # 2]) (tensor_1d [1 # 2]) = Ok v
                /\ 49 # 100 < v)
  /\ DiceLoss.forward (tensor_1d [F32.f0_5]) (tensor_1d [F32.f0_5])
     = Ok F32.f0_5.
Proof.
  split; [discriminate|]. split.
  - eexists; split; [vm_compute; reflexivity|]. reflexivity.
  - vm_compute. reflexivity.
Qed.

Lemma same32_eq (x y : F32.t) : same32 x y = true -> x = y.
Proof.
  destruct x as [a|a| |a m e], y as [b|b| |b m' e']; cbn [same32];
    try discriminate; try reflexivity.
  - intros E. apply Bool.eqb_prop in E. congruence.
  - intros E. apply Bool.eqb_prop in E. congruence.
  - intros E. apply andb_prop in E. destruct E as [E E3].
    apply andb_prop in E. destruct E as [E1 E2].
    apply Bool.eqb_prop in E1. apply Pos.eqb_eq in E2. apply Z.eqb_eq in E3.
    congruence.
Qed.

(** Counting in binary32 is exact up to 256. *)
Lemma count32_one (j : nat) :
  (j < 256)%nat ->
  F32.fadd (F32.of_Z (Z.of_nat j)) (F32.of_Z 1) = F32.of_Z (Z.of_nat (S j)).
Proof.
  intros Hj. apply same32_eq.
  assert (A : forallb
                (fun i => same32
                            (F32.fadd (F32.of_Z (Z.of_nat i)) (F32.of_Z 1))
                            (F32.of_Z (Z.of_nat (S i))))
                (seq 0 256) = true) by (vm_compute; reflexivity).
  rewrite forallb_forall in A. apply A. apply in_seq. lia.
Qed.

Lemma count32_zero (j : nat) :
  (j <= 256)%nat ->
  F32.fadd (F32.of_Z (Z.of_nat j)) (F32.of_Z 0) = F32.of_Z (Z.of_nat j).
Proof.
  intros Hj. apply same32_eq.
  assert (A : forallb
                (fun i => same32
                            (F32.fadd (F32.of_Z (Z.of_nat i)) (F32.of_Z 0))
                            (F32.of_Z (Z.of_nat i)))
                (seq 0 257) = true) by (vm_compute; reflexivity).
  rewrite forallb_forall in A. apply A. apply in_seq. lia.
Qed.

(** The loss of a mask against itself depends on its number of ones only,
    and the 1e-8 is lost in the rounding of the denominator. *)
Lemma self_loss32_by_count (k : nat) :
  (1 <= k <= 256)%nat ->
  F32.fsub (F32.of_Z 1)
    (F32.fdiv (F32.fmul (F32.of_Z 2) (F32.of_Z (Z.of_nat k)))
       (F32.fadd (F32.fadd (F32.of_Z (Z.of_nat k)) (F32.of_Z (Z.of_nat k)))
          F32.f1e_8))
  = S754_zero false.
Proof.
  intros Hk. apply same32_eq.
  assert (A : forallb
                (fun i =>
                   same32
                     (F32.fsub (F32.of_Z 1)
                        (F32.fdiv
                           (F32.fmul (F32.of_Z 2) (F32.of_Z (Z.of_nat i)))
                           (F32.fadd
                              (F32.fadd (F32.of_Z (Z.of_nat i))
                                 (F32.of_Z (Z.of_nat i)))
                              F32.f1e_8)))
                     (S754_zero false))
                (seq 1 256) = true) by (vm_compute; reflexivity).
  rewrite forallb_forall in A. apply A. apply in_seq. lia.
Qed.

Lemma cardinal32_cons (x : F32.t) (l : list F32.t) :
  binary32 x ->
  (x = F32.of_Z 1 /\ cardinal32 (x :: l) = S (cardinal32 l))
  \/ (x = F32.of_Z 0 /\ cardinal32 (x :: l) = cardinal32 l).
Proof.
  intros [-> | ->]; [right | left]; split; reflexivity.
Qed.

Lemma fold_binary32 (l : list F32.t) (j : nat) :
  Forall binary32 l -> (j + cardinal32 l <= 256)%nat ->
  fold_left F32.fadd l (F32.of_Z (Z.of_nat j))
  = F32.of_Z (Z.of_nat (j + cardinal32 l)).
Proof.
  intros Hl; revert j; induction Hl as [|x l Hx _ IH]; intros j Hj.
  - cbn [fold_left]. unfold cardinal32. cbn [filter length].
    rewrite Nat.add_0_r. reflexivity.
  - cbn [fold_left].
    destruct (cardinal32_cons l Hx) as [[-> E]|[-> E]]; rewrite E in *.
    + rewrite count32_one by lia. rewrite IH by lia. f_equal. f_equal. lia.
    + rewrite count32_zero by lia. apply IH. exact Hj.
Qed.

Lemma sum_binary32 (l : list F32.t) :
  Forall binary32 l -> (cardinal32 l <= 256)%nat ->
  sum l = F32.of_Z (Z.of_nat (cardinal32 l)).
Proof.
  intros Hl Hc. apply (@fold_binary32 l 0%nat Hl). exact Hc.
Qed.

Lemma map2_binary32_self (l : list F32.t) :
  Forall binary32 l -> map2 (mul (F := F32.t)) l l = l.
Proof.
  induction 1 as [|x l Hx _ IH]; cbn [map2]; [reflexivity|].
  rewrite IH. destruct Hx as [-> | ->]; reflexivity.
Qed.

Lemma binary32_self_loss (X : tensor F32.t) :
  Forall binary32 (data X) -> (1 <= cardinal32 (data X) <= 256)%nat ->
  DiceLoss.forward X X = Ok (S754_zero false).
Proof.
  intros Hb Hc.
  rewrite (forward_same_length X X eq_refl). unfold DiceLoss.denum.
  rewrite (map2_binary32_self Hb), (sum_binary32 Hb) by lia.
  f_equal. apply self_loss32_by_count. exact Hc.
Qed.

(** C8, amended.  For a binary array X (entries 0 or 1) that is not all-zero,
    the loss of X against itself is approximately 0.  In exact arithmetic it
    is eps / (2 * sum X + eps) with eps = 1e-8, between 0 and 5e-9.  In
    binary32 it is exactly +0 whenever X has at most 256 ones, wherever they
    stand. *)
Theorem forward_self_binary :
  (forall X : tensor Q,
      Forall binary (data X) -> Exists (fun x => ~ x == 0) (data X) ->
      exists v, DiceLoss.forward X X = Ok v
                /\ v == Spec.epsilon / (2 * sum (data X) + Spec.epsilon)
                /\ 0 < v /\ v <= 5 # 1000000000)
  /\ (forall X : tensor F32.t,
         Forall binary32 (data X) ->
         (1 <= cardinal32 (data X) <= 256)%nat ->
         DiceLoss.forward X X = Ok (S754_zero false)).
Proof.
  split; [|exact binary32_self_loss].
  intros X Hb Hn.
  destruct (binary_self_loss X Hb) as (v & E & Ev).
  pose proof (binary_sum_ge_1 Hb Hn) as H1.
  assert (He : Spec.epsilon == 1 # 100000000) by reflexivity.
  exists v. split; [exact E|]. split; [exact Ev|].
  rewrite Ev. split.
  - apply Qlt_shift_div_l; lra.
  - apply Qle_shift_div_r; lra.
Qed.

Lemma forward_self_binary_witness :
  (exists v,
      DiceLoss.forward (tensor_1d [1; 0; 1]) (tensor_1d [1; 0; 1]) = Ok v
      /\ v == Spec.epsilon / (2 * sum [1; 0; 1] + Spec.epsilon)
      /\ 0 < v /\ v <= 5 # 1000000000)
  /\ DiceLoss.forward (tensor_f32 [1; 0; 1]%Z) (tensor_f32 [1; 0; 1]%Z)
     = Ok (S754_zero false).
Proof.
  split.
  - apply (proj1 forward_self_binary (tensor_1d [1; 0; 1])).
    + simpl. repeat constructor; first [left; reflexivity | right; reflexivity].
    + simpl. apply Exists_cons_hd. discriminate.
  - apply (proj2 forward_self_binary (tensor_f32 [1; 0; 1]%Z)).
    + simpl. repeat constructor; first [left; reflexivity | right; reflexivity].
    + vm_compute. split; repeat constructor.
Defined.

(** ** C9: strict positivity *)

(** C9, refuted as stated: in binary32, the dtype of the training step, the
    sum 1 + 1 + 1e-8 rounds to 2, and the loss of the mask [1] against itself
    is exactly +0. *)
Lemma forward_zero_in_binary32 :
  F32.fadd (F32.fadd (F32.of_Z 1) (F32.of_Z 1)) F32.f1e_8 = F32.of_Z 2
  /\ DiceLoss.forward (tensor_f32 [1]%Z) (tensor_f32 [1]%Z)
     = Ok (S754_zero false).
Proof.
  split; vm_compute; reflexivity.
Qed.

Lemma is_plus_zero_true (r : result F32.t) :
  is_plus_zero r = true -> r = Ok (S754_zero false).
Proof.
  destruct r as [[[|]| | |]|]; try discriminate. reflexivity.
Qed.

Lemma ones32_self_loss (n : nat) :
  (1 <= n <= 256)%nat ->
  DiceLoss.forward (ones32 n) (ones32 n) = Ok (S754_zero false).
Proof.
  intros Hn. apply is_plus_zero_true.
  assert (A : forallb
                (fun k => is_plus_zero
                            (DiceLoss.forward (ones32 k) (ones32 k)))
                (seq 1 256) = true) by (vm_compute; reflexivity).
  rewrite forallb_forall in A. apply A. apply in_seq. lia.
Qed.

(** C9, amended.  In exact arithmetic, on equal-shaped arrays with entries in
    [0, 1] the loss is strictly positive and at most 1, and on identical
    binary masks it is eps / (2 * sum X + eps).  In binary32 the epsilon is
    absorbed by the rounding of the denominator, and the loss of identical
    non-zero binary masks can be exactly zero: it is +0 on every all-ones
    mask of 1 to 256 entries, and on [1, 0, 1, 1]. *)
Theorem forward_positive_exact :
  (forall P M : tensor Q,
      wf_tensor P -> wf_tensor M -> shape P = shape M ->
      Forall in_unit (data P) -> Forall in_unit (data M) ->
      exists v, DiceLoss.forward P M = Ok v /\ 0 < v /\ v <= 1)
  /\ (forall X : tensor Q,
         Forall binary (data X) ->
         exists v, DiceLoss.forward X X = Ok v
                   /\ v == Spec.epsilon / (2 * sum (data X) + Spec.epsilon))
  /\ (forall n : nat,
         (1 <= n <= 256)%nat ->
         DiceLoss.forward (ones32 n) (ones32 n) = Ok (S754_zero false))
  /\ DiceLoss.forward (tensor_f32 [1; 0; 1; 1]%Z) (tensor_f32 [1; 0; 1; 1]%Z)
     = Ok (S754_zero false).
Proof.
  split; [|split; [|split]].
  - intros P M WP WM S HP HM.
    destruct (forward_unit_bounds P M (same_shape_same_length WP WM S) HP HM)
      as (v & E & _ & Hlo & Hhi).
    exists v. repeat split; assumption.
  - exact binary_self_loss.
  - exact ones32_self_loss.
  - vm_compute. reflexivity.
Qed.

Lemma forward_positive_exact_witness :
  (exists v,
      DiceLoss.forward (tensor_1d [1 # 2; 1]) (tensor_1d [1; 1]) = Ok v
      /\ 0 < v /\ v <= 1)
  /\ (exists v,
         DiceLoss.forward (tensor_1d [1; 1]) (tensor_1d [1; 1]) = Ok v
         /\ v == Spec.epsilon / (2 * sum [1; 1] + Spec.epsilon))
  /\ DiceLoss.forward (ones32 3) (ones32 3) = Ok (S754_zero false).
Proof.
  split; [|split].
  - apply (proj1 forward_positive_exact
             (tensor_1d [1 # 2; 1]) (tensor_1d [1; 1]));
      try reflexivity; simpl; repeat constructor; discriminate.
  - apply (proj1 (proj2 forward_positive_exact) (tensor_1d [1; 1])).
    simpl. repeat constructor; right; reflexivity.
  - apply (proj1 (proj2 (proj2 forward_positive_exact)) 3%nat). lia.
Defined.

(** ** C4: inputs of different sizes *)

(** C4, refuted as stated: a mask with a single entry is broadcast over a
    prediction with four entries without any error; the loss comes out as
    about -1/3. *)
Lemma forward_broadcasts_single_entry :
  length (flatten (tensor_1d [1; 1; 0; 0])) <> length (flatten (tensor_1d [1]))
  /\ exists v,
      DiceLoss.forward (tensor_1d [1; 1; 0; 0]) (tensor_1d [1]) = Ok v
      /\ Qabs (v + (1 # 3)) <= 1 # 100000000.
Proof.
  split; [discriminate|].
  eexists; split; [vm_compute; reflexivity|].
  vm_compute. intros E; discriminate E.
Qed.

(** C4, amended.  When the flattened inputs differ in size and neither has
    exactly one entry, [forward] raises the size-mismatch error naming both
    sizes; when exactly one of them has a single entry, that entry is
    broadcast over the other input and a loss is returned. *)
Theorem forward_size_mismatch {F : Type} `{Dtype F} (P M : tensor F) :
  length (flatten P) <> length (flatten M) ->
  (length (flatten P) <> 1%nat -> length (flatten M) <> 1%nat ->
   DiceLoss.forward P M
   = Raise (SizeMismatch (length (flatten P)) (length (flatten M)) 0))
  /\ (forall x, flatten P = [x] ->
        DiceLoss.forward P M
        = Ok (sub (of_int 1)
                (div (mul (of_int 2) (sum (map (fun y => mul x y) (flatten M))))
                     (DiceLoss.denum (flatten P) (flatten M)))))
  /\ (forall y, flatten M = [y] ->
        DiceLoss.forward P M
        = Ok (sub (of_int 1)
                (div (mul (of_int 2) (sum (map (fun x => mul x y) (flatten P))))
                     (DiceLoss.denum (flatten P) (flatten M))))).
Proof.
  intros N.
  apply Nat.eqb_neq in N.
  unfold DiceLoss.forward, mul_1d. rewrite N.
  split; [|split].
  - intros NP NM.
    destruct (flatten P) as [|x [|x' p]], (flatten M) as [|y [|y' m]];
      try reflexivity;
      solve [exfalso; apply NP; reflexivity | exfalso; apply NM; reflexivity].
  - intros x E. rewrite E. reflexivity.
  - intros y E. rewrite E in *.
    destruct (flatten P) as [|x [|x' p]]; reflexivity.
Qed.

Lemma forward_size_mismatch_witness :
  DiceLoss.forward (tensor_1d [1; 1; 0; 0]) (tensor_1d [1; 0; 0])
  = Raise (SizeMismatch 4 3 0)
  /\ is_ok (DiceLoss.forward (tensor_1d [1; 1; 0; 0]) (tensor_1d [1 # 2]))
     = true.
Proof.
  split.
  - apply (proj1 (@forward_size_mismatch Q Q_dtype
                    (tensor_1d [1; 1; 0; 0]) (tensor_1d [1; 0; 0])
                    ltac:(discriminate)));
      discriminate.
  - rewrite (proj2 (proj2 (@forward_size_mismatch Q Q_dtype
                             (tensor_1d [1; 1; 0; 0]) (tensor_1d [1 # 2])
                             ltac:(discriminate)))
               (1 # 2) eq_refl).
    reflexivity.
Defined.

(** ** C6: what a step logs and returns *)

Lemma index0_map {A B : Type} (f : A -> B) (x : tensor A) :
  index0 (tensor_map f x)
  = match index0 x with
    | Ok y => Ok (tensor_map f y)
    | Raise e => Raise e
    end.
Proof.
  unfold index0, tensor_map. cbn [shape data].
  destruct (shape x) as [|[|n] s]; try reflexivity.
  rewrite firstn_map. reflexivity.
Qed.

Lemma index00_map {A B : Type} (f : A -> B) (x : tensor A) :
  index00 (tensor_map f x)
  = match index00 x with
    | Ok y => Ok (tensor_map f y)
    | Raise e => Raise e
    end.
Proof.
  unfold index00, bind. rewrite index0_map.
  destruct (index0 x) as [y|e]; [apply index0_map | reflexivity].
Qed.

Lemma index00_batched {A : Type} (x : tensor A) :
  batched x -> exists y, index00 x = Ok y.
Proof.
  intros (n & c & s & E). unfold index00, index0, bind. rewrite E.
  cbn [shape]. eexists; reflexivity.
Qed.

Section Steps.

Context {F : Type} `{Dtype F}.
Variable UNet : tensor F -> tensor F.
Variable sigmoid : F -> F.

Import AtriumSegmentation.

(** [log_images] step by step: the three slices are taken and shown in turn,
    and the first one that does not exist or is not an image stops it. *)
Lemma log_images_cases (mri pred mask : tensor F) (name : string)
    (st : module_state) :
  log_images mri pred mask name st
  = match index00 mri with
    | Raise e => Raise e
    | Ok image =>
        if valid_image_shape (shape image) then
          match index00 mask with
          | Raise e => Raise e
          | Ok mask00 =>
              if valid_image_shape (shape mask00) then
                match index00 pred with
                | Raise e => Raise e
                | Ok pred00 =>
                    if valid_image_shape (shape pred00) then
                      Ok (tt,
                          mkState (global_step st)
                            (emitted st
                             ++ [AddFigure name
                                   (mkFigure image
                                      (masked_where_eq0 eqb0 mask00) image
                                      (masked_where_eq0 negb
                                         (gt_scalar pred00 lit_0_5)))
                                   (global_step st)]))
                    else Raise (TypeError (shape pred00))
                end
              else Raise (TypeError (shape mask00))
          end
        else Raise (TypeError (shape image))
    end.
Proof.
  unfold log_images, bindM, lift, get_global_step, emit, gt_scalar, imshow.
  rewrite index00_map.
  destruct (index00 mri) as [image|e]; [|reflexivity].
  destruct (valid_image_shape (shape image)); [|reflexivity].
  destruct (index00 mask) as [mask00|e]; [|reflexivity].
  cbn [masked_where_eq0 tensor_map shape].
  destruct (valid_image_shape (shape mask00)); [|reflexivity].
  destruct (index00 pred) as [pred00|e]; [|reflexivity].
  cbn [masked_where_eq0 tensor_map shape].
  destruct (valid_image_shape (shape pred00)); reflexivity.
Qed.

(** The figure [log_images] sends, from the three slices it draws. *)
Lemma log_images_ok (mri pred mask image mask00 pred00 : tensor F)
    (name : string) (st : module_state) :
  index00 mri = Ok image -> index00 mask = Ok mask00 ->
  index00 pred = Ok pred00 ->
  valid_image_shape (shape image) = true ->
  valid_image_shape (shape mask00) = true ->
  valid_image_shape (shape pred00) = true ->
  log_images mri pred mask name st
  = Ok (tt, mkState (global_step st)
              (emitted st
               ++ [AddFigure name
                     (mkFigure image (masked_where_eq0 eqb0 mask00) image
                        (masked_where_eq0 negb (gt_scalar pred00 lit_0_5)))
                     (global_step st)])).
Proof.
  intros E1 E2 E3 V1 V2 V3.
  rewrite log_images_cases, E1, V1, E2, V2, E3, V3. reflexivity.
Qed.

Lemma log_images_inv (mri pred mask : tensor F) (name : string)
    (st st' : module_state) (u : unit) :
  log_images mri pred mask name st = Ok (u, st') ->
  exists image mask00 pred00,
    index00 mri = Ok image /\ index00 mask = Ok mask00
    /\ index00 pred = Ok pred00
    /\ st' = mkState (global_step st)
               (emitted st
                ++ [AddFigure name
                      (mkFigure image (masked_where_eq0 eqb0 mask00) image
                         (masked_where_eq0 negb (gt_scalar pred00 lit_0_5)))
                      (global_step st)]).
Proof.
  rewrite log_images_cases. intros E.
  destruct (index00 mri) as [image|e]; [|discriminate E].
  destruct (valid_image_shape (shape image)); [|discriminate E].
  destruct (index00 mask) as [mask00|e]; [|discriminate E].
  destruct (valid_image_shape (shape mask00)); [|discriminate E].
  destruct (index00 pred) as [pred00|e]; [|discriminate E].
  destruct (valid_image_shape (shape pred00)); [|discriminate E].
  exists image, mask00, pred00. repeat split; try reflexivity.
  congruence.
Qed.

Lemma index00_image_batch {A : Type} (x : tensor A) :
  image_batch x ->
  exists y, index00 x = Ok y /\ valid_image_shape (shape y) = true.
Proof.
  intros (n & c & h & w & E). unfold index00, index0, bind. rewrite E.
  cbn [shape]. eexists; split; reflexivity.
Qed.

(** Both steps are read back the same way: the loss is computed, logged
    once, and followed by the figure when the gate is open. *)
Ltac invert_step :=
  unfold step_outcome, bindM, lift, log, emit, ret, float;
  match goal with
  | |- context [DiceLoss.forward ?p ?m] =>
      destruct (DiceLoss.forward p m) as [?|?]; [|discriminate]
  end;
  match goal with
  | |- context [Z.eqb ?a 0%Z] => destruct (Z.eqb a 0%Z)
  end;
  [ let E := fresh "E" in
    let E' := fresh "E'" in
    destruct (log_images _ _ _ _ _) as [[? ?]|?] eqn:E; [|discriminate];
    intros E'; injection E' as <- <-;
    apply log_images_inv in E;
    destruct E as (? & ? & ? & _ & _ & _ & ->);
    cbn [global_step emitted];
    split; [reflexivity|]; split; [reflexivity|];
    eexists; rewrite <- app_assoc; split; [reflexivity|];
    eexists; reflexivity
  | let E' := fresh "E'" in
    intros E'; injection E' as <- <-; cbn [global_step emitted];
    split; [reflexivity|]; split; [reflexivity|];
    exists []; split; reflexivity ].

Lemma training_step_inv (mri mask : tensor F) (batch_idx : Z)
    (st st' : module_state) (loss : F) :
  training_step UNet sigmoid (mri, mask) batch_idx st = Ok (loss, st') ->
  step_outcome UNet sigmoid "Train Dice" "Train" (batch_idx mod 50 =? 0)%Z
    mri mask st loss st'.
Proof.
  unfold training_step. invert_step.
Qed.

Lemma validation_step_inv (mri mask : tensor F) (batch_idx : Z)
    (st st' : module_state) (loss : F) :
  validation_step UNet sigmoid (mri, mask) batch_idx st = Ok (loss, st') ->
  step_outcome UNet sigmoid "Val Dice" "Val" (batch_idx mod 2 =? 0)%Z
    mri mask st loss st'.
Proof.
  unfold validation_step. invert_step.
Qed.

Lemma steps_return (mri mask : tensor F) (batch_idx : Z) (st : module_state) :
  image_batch mri -> image_batch mask ->
  image_batch (forward UNet sigmoid mri) ->
  length (data (forward UNet sigmoid mri)) = length (data mask) ->
  exists loss st1 st2,
    training_step UNet sigmoid (mri, mask) batch_idx st = Ok (loss, st1)
    /\ validation_step UNet sigmoid (mri, mask) batch_idx st = Ok (loss, st2).
Proof.
  intros Bi Bm Bp L.
  destruct (index00_image_batch Bi) as (image & E1 & V1).
  destruct (index00_image_batch Bm) as (mask00 & E2 & V2).
  destruct (index00_image_batch Bp) as (pred00 & E3 & V3).
  unfold training_step, validation_step, bindM, lift, log, emit, ret, float.
  rewrite (forward_same_length _ _ L).
  pose proof (fun n s => @log_images_ok _ _ _ _ _ _ n s E1 E2 E3 V1 V2 V3)
    as LI.
  destruct (batch_idx mod 50 =? 0)%Z, (batch_idx mod 2 =? 0)%Z;
    rewrite ?LI; do 3 eexists; split; reflexivity.
Qed.

End Steps.

(** C6. A step that returns has returned the Dice loss of the prediction
    against the mask and has sent it exactly once, under "Train Dice" for a
    training step and under "Val Dice" for a validation step; it has sent the
    figure after it if and only if the batch index is a multiple of 50
    (training) or of 2 (validation); the loss does not depend on that.  On a
    batch of images (samples, channels, rows, columns, none empty) whose
    prediction is such a batch with as many entries as the mask, both steps
    return. *)
Theorem steps_log_and_return {F : Type} `{Dtype F}
    (UNet : tensor F -> tensor F) (sigmoid : F -> F)
    (mri mask : tensor F) (batch_idx : Z)
    (st : @AtriumSegmentation.module_state F) :
  (forall loss st',
      AtriumSegmentation.training_step UNet sigmoid (mri, mask) batch_idx st
      = Ok (loss, st') ->
      AtriumSegmentation.step_outcome UNet sigmoid "Train Dice" "Train"
        (batch_idx mod 50 =? 0)%Z mri mask st loss st')
  /\ (forall loss st',
         AtriumSegmentation.validation_step UNet sigmoid (mri, mask)
           batch_idx st = Ok (loss, st') ->
         AtriumSegmentation.step_outcome UNet sigmoid "Val Dice" "Val"
           (batch_idx mod 2 =? 0)%Z mri mask st loss st')
  /\ (image_batch mri -> image_batch mask ->
      image_batch (AtriumSegmentation.forward UNet sigmoid mri) ->
      length (data (AtriumSegmentation.forward UNet sigmoid mri))
      = length (data mask) ->
      exists loss st1 st2,
        AtriumSegmentation.training_step UNet sigmoid (mri, mask) batch_idx st
        = Ok (loss, st1)
        /\ AtriumSegmentation.validation_step UNet sigmoid (mri, mask)
             batch_idx st = Ok (loss, st2)).
Proof.
  split; [|split].
  - intros loss st'. apply training_step_inv.
  - intros loss st'. apply validation_step_inv.
  - apply steps_return.
Qed.

Lemma steps_log_and_return_witness :
  (exists loss st',
      AtriumSegmentation.training_step (fun x => x) (fun v => v)
        (mkTensor [1; 1; 1; 2]%nat [1 # 2; 3 # 4],
         mkTensor [1; 1; 1; 2]%nat [1; 0])
        50 (AtriumSegmentation.mkState 7 [])
      = Ok (loss, st')
      /\ AtriumSegmentation.step_outcome (fun x => x) (fun v => v)
           "Train Dice" "Train" true
           (mkTensor [1; 1; 1; 2]%nat [1 # 2; 3 # 4])
           (mkTensor [1; 1; 1; 2]%nat [1; 0])
           (AtriumSegmentation.mkState 7 []) loss st')
  /\ (exists loss st',
         AtriumSegmentation.validation_step (fun x => x) (fun v => v)
           (mkTensor [1; 1; 1; 2]%nat [1 # 2; 3 # 4],
            mkTensor [1; 1; 1; 2]%nat [1; 0])
           3 (AtriumSegmentation.mkState 7 [])
         = Ok (loss, st')
         /\ AtriumSegmentation.step_outcome (fun x => x) (fun v => v)
              "Val Dice" "Val" false
              (mkTensor [1; 1; 1; 2]%nat [1 # 2; 3 # 4])
              (mkTensor [1; 1; 1; 2]%nat [1; 0])
              (AtriumSegmentation.mkState 7 []) loss st')
  /\ (exists loss st1 st2,
         AtriumSegmentation.training_step (fun x => x) (fun v => v)
           (mkTensor [1; 1; 1; 2]%nat [1 # 2; 3 # 4],
            mkTensor [1; 1; 1; 2]%nat [1; 0])
           50 (AtriumSegmentation.mkState 7 [])
         = Ok (loss, st1)
         /\ AtriumSegmentation.validation_step (fun x => x) (fun v => v)
              (mkTensor [1; 1; 1; 2]%nat [1 # 2; 3 # 4],
               mkTensor [1; 1; 1; 2]%nat [1; 0])
              50 (AtriumSegmentation.mkState 7 [])
            = Ok (loss, st2)).
Proof.
  split; [|split].
  - eexists; eexists; split; [vm_compute; reflexivity|].
    apply (proj1 (@steps_log_and_return Q Q_dtype (fun x => x) (fun v => v)
                    (mkTensor [1; 1; 1; 2]%nat [1 # 2; 3 # 4])
                    (mkTensor [1; 1; 1; 2]%nat [1; 0])
                    50%Z (AtriumSegmentation.mkState 7 []))).
    vm_compute. reflexivity.
  - eexists; eexists; split; [vm_compute; reflexivity|].
    apply (proj1 (proj2 (@steps_log_and_return Q Q_dtype
                           (fun x => x) (fun v => v)
                           (mkTensor [1; 1; 1; 2]%nat [1 # 2; 3 # 4])
                           (mkTensor [1; 1; 1; 2]%nat [1; 0])
                           3%Z (AtriumSegmentation.mkState 7 [])))).
    vm_compute. reflexivity.
  - apply (proj2 (proj2 (@steps_log_and_return Q Q_dtype
                           (fun x => x) (fun v => v)
                           (mkTensor [1; 1; 1; 2]%nat [1 # 2; 3 # 4])
                           (mkTensor [1; 1; 1; 2]%nat [1; 0])
                           50%Z (AtriumSegmentation.mkState 7 [])))).
    + exists 0%nat, 0%nat, 0%nat, 1%nat. reflexivity.
    + exists 0%nat, 0%nat, 0%nat, 1%nat. reflexivity.
    + exists 0%nat, 0%nat, 0%nat, 1%nat. reflexivity.
    + reflexivity.
Defined.

(** ** C10: the threshold is strict *)

Lemma gtb_exact (p c : Q) : gtb p c = true <-> c < p.
Proof.
  exact_arith. rewrite negb_true_iff.
  split.
  - intros E. apply Qnot_le_lt. intros L.
    apply Qle_bool_iff in L. congruence.
  - intros L. destruct (Qle_bool p c) eqn:E; [|reflexivity].
    apply Qle_bool_iff in E. lra.
Qed.

Lemma gt_scalar_entry {F : Type} `{Dtype F} (x : tensor F) (c : F)
    (j : nat) (p : F) :
  nth_error (data x) j = Some p ->
  nth_error (data (gt_scalar x c)) j = Some (gtb p c).
Proof.
  intros E. unfold gt_scalar, tensor_map. cbn [data].
  rewrite nth_error_map, E. reflexivity.
Qed.

Lemma overlay_entry {F : Type} `{Dtype F} (x : tensor F) (c : F)
    (j : nat) (p : F) :
  nth_error (data x) j = Some p ->
  nth_error (data (masked_where_eq0 negb (gt_scalar x c))) j
  = Some (if gtb p c then Some true else None).
Proof.
  intros E. unfold masked_where_eq0, tensor_map. cbn [data].
  rewrite nth_error_map, (gt_scalar_entry _ _ _ E). cbn [option_map].
  destruct (gtb p c); reflexivity.
Qed.

Section InferenceLoop.

Context {F : Type} `{Dtype F}.
Variable model : tensor F -> tensor F.
Variable scan : @volume F.

Lemma inference_from_inv (todo : list nat) (acc preds : list (tensor bool)) :
  inference_from model scan todo acc = Ok preds ->
  exists new,
    preds = acc ++ new /\ length new = length todo
    /\ forall k i, nth_error todo k = Some i ->
         exists prob, slice_probabilities model scan i = Ok prob
                      /\ nth_error new k = Some (gt_scalar prob lit_0_5).
Proof.
  revert acc; induction todo as [|i todo IH]; intros acc E;
    cbn [inference_from] in E.
  - injection E as <-. exists []. rewrite app_nil_r.
    repeat split. intros [|k] i'; discriminate.
  - change (bind (slice_probabilities model scan i)
              (fun pred => inference_from model scan todo
                             (acc ++ [gt_scalar pred lit_0_5]))
            = Ok preds) in E.
    destruct (slice_probabilities model scan i) as [prob|e] eqn:Ep;
      [|discriminate E].
    destruct (IH _ E) as (new & -> & Ln & Hn).
    exists (gt_scalar prob lit_0_5 :: new).
    rewrite <- app_assoc. split; [reflexivity|].
    split; [cbn; rewrite Ln; reflexivity|].
    intros [|k] i' Ek; cbn in Ek.
    + injection Ek as <-. exists prob. split; [exact Ep | reflexivity].
    + apply (Hn k i' Ek).
Qed.

Lemma inference_from_returns (todo : list nat) (acc : list (tensor bool)) :
  (forall x, batched x -> batched (model x)) ->
  exists preds, inference_from model scan todo acc = Ok preds.
Proof.
  intros Hm. revert acc; induction todo as [|i todo IH]; intros acc;
    cbn [inference_from].
  - eexists; reflexivity.
  - assert (B : batched (model (unsqueeze0 (unsqueeze0 (slice_at scan i))))).
    { apply Hm. exists 0%nat, 0%nat, [vol_h scan; vol_w scan]. reflexivity. }
    destruct (index00_batched B) as (prob & E).
    cbv zeta. rewrite E. cbn [bind]. apply IH.
Qed.

End InferenceLoop.

(** C10. Binarisation keeps exactly the entries strictly above 0.5: an entry
    equal to 0.5 becomes [false], in exact arithmetic and in binary32.  In
    [log_images] the right-hand overlay shows entry j of [pred[0][0]] if and
    only if it is above 0.5; in the inference loop, prediction i is the
    probability map of slice i thresholded entry by entry, one per slice. *)
Theorem threshold_is_strict :
  (forall p : Q, gtb p lit_0_5 = true <-> 1 # 2 < p)
  /\ (forall p : Q, p == 1 # 2 -> gtb p lit_0_5 = false)
  /\ gtb F32.f0_5 (lit_0_5 (F := F32.t)) = false
  /\ (forall p : F32.t,
         gtb p lit_0_5 = true <-> SFcompare F32.f0_5 p = Some Lt)
  /\ (forall (F : Type) (D : Dtype F) (x : tensor F) (j : nat) (p : F),
         nth_error (data x) j = Some p ->
         nth_error (data (gt_scalar x lit_0_5)) j = Some (gtb p lit_0_5))
  /\ (forall (F : Type) (D : Dtype F) (mri pred mask : tensor F)
             (name : string) (st st' : @AtriumSegmentation.module_state F)
             (u : unit),
         AtriumSegmentation.log_images mri pred mask name st = Ok (u, st') ->
         exists fig pred00,
           AtriumSegmentation.emitted st'
           = AtriumSegmentation.emitted st
             ++ [AtriumSegmentation.AddFigure name fig
                   (AtriumSegmentation.global_step st)]
           /\ index00 pred = Ok pred00
           /\ forall j p,
               nth_error (data pred00) j = Some p ->
               nth_error (data (AtriumSegmentation.axis1_overlay fig)) j
               = Some (if gtb p lit_0_5 then Some true else None))
  /\ (forall (F : Type) (D : Dtype F) (model : tensor F -> tensor F)
             (scan : @volume F) (preds : list (tensor bool)),
         inference model scan = Ok preds ->
         length preds = vol_d scan
         /\ forall i, (i < vol_d scan)%nat ->
              exists prob,
                slice_probabilities model scan i = Ok prob
                /\ nth_error preds i = Some (gt_scalar prob lit_0_5))
  /\ (forall (F : Type) (D : Dtype F) (model : tensor F -> tensor F)
             (scan : @volume F),
         (forall x, batched x -> batched (model x)) ->
         exists preds, inference model scan = Ok preds).
Proof.
  split; [intros p; apply gtb_exact|].
  split.
  { intros p E. destruct (gtb p lit_0_5) eqn:G; [|reflexivity].
    apply gtb_exact in G. change (1 # 2 < p) in G. lra. }
  split; [reflexivity|].
  split.
  { intros p. cbn [gtb F32_dtype lit_0_5]. unfold F32.fgtb, SFltb.
    destruct (SFcompare F32.f0_5 p) as [[| |]|]; split; congruence. }
  split; [intros F D x j p; apply gt_scalar_entry|].
  split.
  { intros F D mri pred mask name st st' u E.
    apply log_images_inv in E.
    destruct E as (image & mask00 & pred00 & _ & _ & E3 & ->).
    eexists; exists pred00. cbn [AtriumSegmentation.emitted].
    split; [reflexivity|]. split; [exact E3|].
    intros j p Ej. cbn [AtriumSegmentation.axis1_overlay].
    apply overlay_entry; exact Ej. }
  split.
  { intros F D model scan preds E.
    apply inference_from_inv in E.
    destruct E as (new & -> & Ln & Hn). cbn [app].
    rewrite length_seq in Ln. split; [exact Ln|].
    intros i Hi. apply Hn.
    rewrite (nth_error_nth' _ 0%nat) by (rewrite length_seq; exact Hi).
    rewrite seq_nth by exact Hi. reflexivity. }
  intros F D model scan Hm. apply inference_from_returns; exact Hm.
Qed.

Lemma threshold_is_strict_witness :
  gtb (2 # 4) (lit_0_5 (F := Q)) = false
  /\ (gtb (51 # 100) (lit_0_5 (F := Q)) = true <-> 1 # 2 < 51 # 100)
  /\ (exists preds,
         inference (fun x => x) (mkVolume 1 2 2 [1 # 2; 3 # 4; 1; 0])
         = Ok preds).
Proof.
  split; [|split].
  - apply (proj1 (proj2 threshold_is_strict) (2 # 4)). reflexivity.
  - apply (proj1 threshold_is_strict (51 # 100)).
  - apply (proj2 (proj2 (proj2 (proj2 (proj2 (proj2 (proj2
             threshold_is_strict)))))) Q Q_dtype (fun x => x)
             (mkVolume 1 2 2 [1 # 2; 3 # 4; 1; 0])).
    intros x B. exact B.
Defined.

(** ** C5: the checkpoints retained *)

Lemma sorted_app {A : Type} (R : A -> A -> Prop) (a b : list A) :
  StronglySorted R (a ++ b) ->
  StronglySorted R a /\ forall x y, In x a -> In y b -> R x y.
Proof.
  induction a as [|h a IH]; cbn [app]; intros Hs.
  - split; [constructor | intros x y []].
  - apply StronglySorted_inv in Hs. destruct Hs as [Hs Hh].
    destruct (IH Hs) as [Sa Hab]. rewrite Forall_forall in Hh. split.
    + constructor; [exact Sa|]. rewrite Forall_forall.
      intros y Hy. apply Hh, in_or_app. left; exact Hy.
    + intros x y [<-|Hx] Hy.
      * apply Hh, in_or_app. right; exact Hy.
      * apply Hab; assumption.
Qed.

Module CheckpointFacts.

Import Checkpoint.

Lemma improves_lt (c w : record) : improves c w = true <-> lt c w.
Proof.
  unfold improves, lt. rewrite negb_true_iff. split.
  - intros E. apply Qnot_le_lt. intros L.
    apply Qle_bool_iff in L. congruence.
  - intros L. destruct (Qle_bool (metric w) (metric c)) eqn:E; [|reflexivity].
    apply Qle_bool_iff in E. lra.
Qed.

Lemma not_improves_le (c w : record) : improves c w = false <-> le w c.
Proof.
  unfold improves, le. rewrite negb_false_iff. apply Qle_bool_iff.
Qed.

Lemma insert_length (c : record) (l : list record) :
  length (insert c l) = S (length l).
Proof.
  induction l as [|x l IH]; cbn [insert]; [reflexivity|].
  destruct (improves c x); cbn [length]; [reflexivity|].
  rewrite IH. reflexivity.
Qed.

Lemma insert_perm (c : record) (l : list record) :
  Permutation (insert c l) (c :: l).
Proof.
  induction l as [|x l IH]; cbn [insert]; [reflexivity|].
  destruct (improves c x); [reflexivity|].
  rewrite IH. apply perm_swap.
Qed.

Lemma insert_sorted (c : record) (l : list record) :
  StronglySorted le l -> StronglySorted le (insert c l).
Proof.
  induction 1 as [|x l Hs IH Hx]; cbn [insert].
  - repeat constructor.
  - destruct (improves c x) eqn:E.
    + apply improves_lt in E. constructor.
      * constructor; assumption.
      * constructor.
        -- unfold le, lt in *. lra.
        -- revert Hx. apply Forall_impl. intros y. unfold le, lt in *. lra.
    + apply not_improves_le in E. constructor; [exact IH|].
      apply (Permutation_Forall (Permutation_sym (insert_perm c l))).
      constructor; assumption.
Qed.

Lemma firstn_insert (K : nat) (c : record) (s : list record) :
  firstn K (insert c (firstn K s)) = firstn K (insert c s).
Proof.
  revert K; induction s as [|x s IH]; intros [|K]; try reflexivity.
  cbn [firstn insert]. destruct (improves c x).
  - cbn [firstn]. f_equal.
    change (x :: firstn K s) with (firstn (S K) (x :: s)).
    rewrite firstn_firstn. f_equal. lia.
  - cbn [firstn]. rewrite IH. reflexivity.
Qed.

(** A candidate no better than any retained one goes to the end. *)
Lemma insert_last (c : record) (l : list record) :
  Forall (fun x => le x c) l -> insert c l = l ++ [c].
Proof.
  induction 1 as [|x l Hx _ IH]; cbn [insert app]; [reflexivity|].
  apply not_improves_le in Hx. rewrite Hx, IH. reflexivity.
Qed.

Lemma worst_app (l : list record) (w : record) : worst (l ++ [w]) = Some w.
Proof.
  unfold worst. rewrite map_app. apply last_last.
Qed.

Lemma worst_nil : worst [] = None.
Proof. reflexivity. Qed.

(** In a ranked list every entry is at most the worst one. *)
Lemma sorted_le_worst (l : list record) (w : record) :
  StronglySorted le (l ++ [w]) -> Forall (fun x => le x w) (l ++ [w]).
Proof.
  induction l as [|x l IH]; cbn [app]; intros Hs.
  - repeat constructor. unfold le. lra.
  - apply StronglySorted_inv in Hs. destruct Hs as [Hs Hx].
    constructor; [|apply IH; exact Hs].
    rewrite Forall_forall in Hx. apply Hx. apply in_or_app. right. left.
    reflexivity.
Qed.

Lemma firstn_sorted (K : nat) (s : list record) :
  StronglySorted le s -> StronglySorted le (firstn K s).
Proof.
  intros Hs. rewrite <- (firstn_skipn K s) in Hs.
  apply (sorted_app _ _ Hs).
Qed.

(** A full list keeps a candidate that does not improve upon its worst
    entry out. *)
Lemma discard_when_worse (K : nat) (r : list record) (c : record) :
  length r = K -> StronglySorted le r ->
  (forall w, worst r = Some w -> le w c) ->
  on_validation_end K r c = r /\ firstn K (insert c r) = r.
Proof.
  intros L Hs Hw. unfold on_validation_end.
  rewrite L, Nat.ltb_irrefl. cbn [orb].
  destruct r as [|w r' _] using rev_ind.
  - subst K. split; reflexivity.
  - specialize (Hw w (worst_app r' w)).
    rewrite worst_app, (proj2 (not_improves_le c w) Hw).
    split; [reflexivity|].
    rewrite insert_last.
    + rewrite <- L, firstn_app, firstn_all, Nat.sub_diag. cbn [firstn].
      apply app_nil_r.
    + generalize (sorted_le_worst _ _ Hs). apply Forall_impl.
      intros x. unfold le in *. lra.
Qed.

(** One transition, seen on the ranking of everything met so far. *)
Lemma on_validation_end_firstn (K : nat) (s : list record) (c : record) :
  StronglySorted le s ->
  on_validation_end K (firstn K s) c = firstn K (insert c s).
Proof.
  intros Hs.
  destruct (Nat.ltb (length (firstn K s)) K) eqn:Lt.
  - apply Nat.ltb_lt in Lt. rewrite length_firstn in Lt.
    assert (Ls : (length s < K)%nat) by lia.
    rewrite (firstn_all2 s) by lia.
    unfold on_validation_end, evict.
    rewrite (proj2 (Nat.ltb_lt _ _) Ls). cbn [orb].
    rewrite insert_length.
    rewrite (proj2 (Nat.ltb_ge _ _)) by lia.
    rewrite firstn_all2 by (rewrite insert_length; lia). reflexivity.
  - apply Nat.ltb_ge in Lt. rewrite length_firstn in Lt.
    assert (L : length (firstn K s) = K) by (rewrite length_firstn; lia).
    rewrite <- firstn_insert.
    destruct (worst (firstn K s)) as [w|] eqn:W.
    + destruct (improves c w) eqn:I.
      * unfold on_validation_end, evict.
        rewrite W, I, orb_true_r, insert_length, L.
        rewrite (proj2 (Nat.ltb_lt _ _)) by lia.
        rewrite removelast_firstn_len, insert_length, L. reflexivity.
      * apply not_improves_le in I.
        assert (Hw : forall w', worst (firstn K s) = Some w' -> le w' c)
          by (intros w' E; congruence).
        destruct (@discard_when_worse K (firstn K s) c L
                    (firstn_sorted K Hs) Hw) as [-> ->].
        reflexivity.
    + assert (Hw : forall w', worst (firstn K s) = Some w' -> le w' c)
        by (intros w' E; congruence).
      destruct (@discard_when_worse K (firstn K s) c L
                  (firstn_sorted K Hs) Hw) as [-> ->].
      reflexivity.
Qed.

Lemma ranked_from_sorted (l s : list record) :
  StronglySorted le s ->
  StronglySorted le (fold_left (fun l c => insert c l) l s).
Proof.
  revert s; induction l as [|c l IH]; intros s Hs; cbn [fold_left].
  - exact Hs.
  - apply IH, insert_sorted, Hs.
Qed.

Lemma ranked_from_perm (l s : list record) :
  Permutation (fold_left (fun l c => insert c l) l s) (s ++ l).
Proof.
  revert s; induction l as [|c l IH]; intros s; cbn [fold_left].
  - rewrite app_nil_r. reflexivity.
  - rewrite IH, insert_perm. apply Permutation_middle.
Qed.

Lemma run_from_ranked (K : nat) (l s : list record) :
  StronglySorted le s ->
  fold_left (on_validation_end K) l (firstn K s)
  = firstn K (fold_left (fun l c => insert c l) l s).
Proof.
  revert s; induction l as [|c l IH]; intros s Hs; cbn [fold_left].
  - reflexivity.
  - rewrite (@on_validation_end_firstn K s c Hs).
    apply IH, insert_sorted, Hs.
Qed.

(** The retained list is the start of the ranking of all candidates. *)
Lemma run_ranked (K : nat) (l : list record) :
  run K l = firstn K (ranked l).
Proof.
  unfold run, ranked.
  rewrite <- (@run_from_ranked K l [] (SSorted_nil le)).
  destruct K; reflexivity.
Qed.

Lemma ranked_sorted (l : list record) : StronglySorted le (ranked l).
Proof. apply ranked_from_sorted. constructor. Qed.

Lemma ranked_perm (l : list record) : Permutation (ranked l) l.
Proof. apply (ranked_from_perm l []). Qed.

Lemma distinct_perm (a b : list record) :
  Permutation a b -> distinct_metrics a -> distinct_metrics b.
Proof.
  intros P. unfold distinct_metrics.
  apply Permutation_NoDup, Permutation_map, P.
Qed.

(** With distinct values a ranked list is strictly ascending. *)
Lemma sorted_strict (l : list record) :
  StronglySorted le l -> distinct_metrics l -> StronglySorted lt l.
Proof.
  unfold distinct_metrics.
  induction 1 as [|x l Hs IH Hx]; intros Hd; [constructor|].
  cbn [map] in Hd. apply NoDup_cons_iff in Hd. destruct Hd as [Hn Hd].
  constructor; [apply IH; exact Hd|].
  rewrite Forall_forall in *. intros y Hy.
  specialize (Hx y Hy). unfold le, lt in *.
  destruct (Qeq_dec (metric x) (metric y)) as [E|N]; [|lra].
  exfalso. apply Hn. apply Qred_complete in E. rewrite E.
  apply (in_map (fun c => Qred (metric c))). exact Hy.
Qed.

Lemma worst_in (r : list record) (w : record) :
  worst r = Some w -> In w r.
Proof.
  destruct r as [|w' r' _] using rev_ind; [discriminate|].
  rewrite worst_app. intros E; injection E as <-.
  apply in_or_app. right. left. reflexivity.
Qed.

Lemma run_top_k (K : nat) (cands : list record) :
  distinct_metrics cands -> (K < length cands)%nat ->
  length (run K cands) = K
  /\ StronglySorted lt (run K cands)
  /\ incl (run K cands) cands
  /\ (forall x y, In x (run K cands) -> In y cands ->
                  ~ In y (run K cands) -> lt x y).
Proof.
  intros Hd HK. rewrite run_ranked.
  pose proof (ranked_perm cands) as P.
  pose proof (sorted_strict (ranked_sorted cands)
                (distinct_perm (Permutation_sym P) Hd)) as Hs.
  rewrite <- (firstn_skipn K (ranked cands)) in Hs.
  destruct (sorted_app _ _ Hs) as [Sa Hab].
  split; [|split; [exact Sa|split]].
  - rewrite length_firstn, (Permutation_length P). lia.
  - intros x Hx. apply (Permutation_in _ P).
    rewrite <- (firstn_skipn K (ranked cands)). apply in_or_app.
    left; exact Hx.
  - intros x y Hx Hy Hn. apply Hab; [exact Hx|].
    apply (Permutation_in _ (Permutation_sym P)) in Hy.
    rewrite <- (firstn_skipn K (ranked cands)) in Hy.
    apply in_app_or in Hy. destruct Hy as [Hy|Hy]; [contradiction|exact Hy].
Qed.

Lemma worse_candidate_discarded (K : nat) (r : list record) (c : record) :
  length r = K -> StronglySorted le r -> Forall (fun x => lt x c) r ->
  on_validation_end K r c = r.
Proof.
  intros L Hs Hc. apply (discard_when_worse (c := c) L Hs).
  intros w Hw. apply worst_in in Hw. rewrite Forall_forall in Hc.
  specialize (Hc w Hw). unfold le, lt in *. lra.
Qed.

End CheckpointFacts.

(** C5. The notebook's callback monitors "Val Dice" in mode min with
    [save_top_k] = 10.  For any K, after more than K candidates with distinct
    monitored values the policy retains exactly K checkpoints, in strictly
    ascending order of the monitored value, all of them candidates, and each
    one lower than every candidate that is not retained.  With K = 2 and the
    values 0.5, 0.3, 0.4, 0.2 the retained values are 0.2, 0.3.  A candidate
    worse than every entry of a full list leaves the list as it is. *)
Theorem top_k_retained :
  (monitor checkpoint_callback = "Val Dice"%string
   /\ save_top_k checkpoint_callback = 10%nat
   /\ mode checkpoint_callback = Min)
  /\ (forall (K : nat) (cands : list Checkpoint.record),
         Checkpoint.distinct_metrics cands -> (K < length cands)%nat ->
         length (Checkpoint.run K cands) = K
         /\ StronglySorted Checkpoint.lt (Checkpoint.run K cands)
         /\ incl (Checkpoint.run K cands) cands
         /\ (forall x y,
                In x (Checkpoint.run K cands) -> In y cands ->
                ~ In y (Checkpoint.run K cands) -> Checkpoint.lt x y))
  /\ map Checkpoint.metric
       (Checkpoint.run 2
          (Checkpoint.of_metrics [5 # 10; 3 # 10; 4 # 10; 2 # 10]))
     = [2 # 10; 3 # 10]
  /\ (forall (K : nat) (r : list Checkpoint.record) (c : Checkpoint.record),
         length r = K -> StronglySorted Checkpoint.le r ->
         Forall (fun x => Checkpoint.lt x c) r ->
         Checkpoint.on_validation_end K r c = r).
Proof.
  split; [repeat split|].
  split; [exact CheckpointFacts.run_top_k|].
  split; [reflexivity|].
  exact CheckpointFacts.worse_candidate_discarded.
Qed.

Lemma top_k_retained_witness :
  length (Checkpoint.run (save_top_k checkpoint_callback)
            (Checkpoint.of_metrics
               [50 # 100; 30 # 100; 40 # 100; 20 # 100; 45 # 100; 35 # 100;
                25 # 100; 15 # 100; 10 # 100; 12 # 100; 11 # 100; 9 # 100]))
  = 10%nat
  /\ Checkpoint.on_validation_end 2
       [Checkpoint.mkRecord 3 (2 # 10); Checkpoint.mkRecord 1 (3 # 10)]
       (Checkpoint.mkRecord 4 (6 # 10))
     = [Checkpoint.mkRecord 3 (2 # 10); Checkpoint.mkRecord 1 (3 # 10)].
Proof.
  split.
  - apply (proj1 (proj2 top_k_retained) 10%nat
             (Checkpoint.of_metrics
                [50 # 100; 30 # 100; 40 # 100; 20 # 100; 45 # 100; 35 # 100;
                 25 # 100; 15 # 100; 10 # 100; 12 # 100; 11 # 100; 9 # 100])).
    + unfold Checkpoint.distinct_metrics. vm_compute map.
      repeat (constructor; [simpl; intuition discriminate|]). constructor.
    + simpl. lia.
  - apply (proj2 (proj2 (proj2 top_k_retained)) 2%nat).
    + reflexivity.
    + repeat constructor; discriminate.
    + repeat constructor.
Defined.

(** * Further properties *)

(** ** [standardize] and [normalize] *)

Lemma Qmin_cases (x y : Q) : Qmin x y = x \/ Qmin x y = y.
Proof.
  unfold Qmin, GenericMinMax.gmin. destruct (x ?= y); auto.
Qed.

Lemma Qmax_cases (x y : Q) : Qmax x y = x \/ Qmax x y = y.
Proof.
  unfold Qmax, GenericMinMax.gmax. destruct (x ?= y); auto.
Qed.

Lemma fold_min_spec (l : list Q) (x : Q) :
  In (fold_left Qmin l x) (x :: l)
  /\ Forall (fun y => fold_left Qmin l x <= y) (x :: l).
Proof.
  revert x; induction l as [|y l IH]; intros x; cbn [fold_left].
  - split; [left; reflexivity | repeat constructor; apply Qle_refl].
  - destruct (IH (Qmin x y)) as [Hin Hle].
    apply Forall_cons_iff in Hle. destruct Hle as [Hm Hl].
    split.
    + destruct Hin as [E|Hin]; [|right; right; exact Hin].
      rewrite <- E. destruct (Qmin_cases x y) as [-> | ->];
        [left | right; left]; reflexivity.
    + constructor; [|constructor; [|exact Hl]].
      * eapply Qle_trans; [exact Hm | apply Q.le_min_l].
      * eapply Qle_trans; [exact Hm | apply Q.le_min_r].
Qed.

Lemma fold_max_spec (l : list Q) (x : Q) :
  In (fold_left Qmax l x) (x :: l)
  /\ Forall (fun y => y <= fold_left Qmax l x) (x :: l).
Proof.
  revert x; induction l as [|y l IH]; intros x; cbn [fold_left].
  - split; [left; reflexivity | repeat constructor; apply Qle_refl].
  - destruct (IH (Qmax x y)) as [Hin Hle].
    apply Forall_cons_iff in Hle. destruct Hle as [Hm Hl].
    split.
    + destruct Hin as [E|Hin]; [|right; right; exact Hin].
      rewrite <- E. destruct (Qmax_cases x y) as [-> | ->];
        [left | right; left]; reflexivity.
    + constructor; [|constructor; [|exact Hl]].
      * eapply Qle_trans; [apply Q.le_max_l | exact Hm].
      * eapply Qle_trans; [apply Q.le_max_r | exact Hm].
Qed.

(** The minimum of a non-empty array is one of its entries and bounds all of
    them from below; the maximum likewise from above. *)
Lemma np_min_spec (l : list Q) (x : Q) :
  In x l ->
  exists lo, np.min l = NpOk lo /\ In lo l /\ Forall (fun y => lo <= y) l.
Proof.
  destruct l as [|a l]; [intros []|intros _].
  exists (fold_left Qmin l a). split; [reflexivity|]. apply fold_min_spec.
Qed.

Lemma np_max_spec (l : list Q) (x : Q) :
  In x l ->
  exists hi, np.max l = NpOk hi /\ In hi l /\ Forall (fun y => y <= hi) l.
Proof.
  destruct l as [|a l]; [intros []|intros _].
  exists (fold_left Qmax l a). split; [reflexivity|]. apply fold_max_spec.
Qed.

(** What [standardize] returns on an array with an entry: the affine map
    through its minimum and maximum, entry by entry. *)
Lemma standardize_ok (v : @volume Q) (x : Q) :
  In x (voxels v) ->
  exists lo hi,
    np.min (voxels v) = NpOk lo /\ np.max (voxels v) = NpOk hi
    /\ In lo (voxels v) /\ In hi (voxels v)
    /\ Forall (fun y => lo <= y /\ y <= hi) (voxels v)
    /\ standardize v
       = NpOk (mkVolume (vol_h v) (vol_w v) (vol_d v)
                 (map (fun y => (y - lo) / (hi - lo)) (voxels v))).
Proof.
  intros Hx.
  destruct (np_min_spec _ _ Hx) as (lo & Elo & Ilo & Hlo).
  destruct (np_max_spec _ _ Hx) as (hi & Ehi & Ihi & Hhi).
  exists lo, hi. unfold standardize. rewrite Elo, Ehi.
  repeat split; try assumption.
  rewrite Forall_forall in *. intros y Hy. split; [apply Hlo | apply Hhi]; exact Hy.
Qed.

Lemma unit_scale (lo hi y : Q) :
  lo < hi -> lo <= y -> y <= hi -> in_unit ((y - lo) / (hi - lo)).
Proof.
  intros Hlt H1 H2. unfold in_unit. split.
  - apply Qle_shift_div_l; lra.
  - apply Qle_shift_div_r; lra.
Qed.

Lemma scale_lt (lo hi a b : Q) :
  lo < hi -> (a < b <-> (a - lo) / (hi - lo) < (b - lo) / (hi - lo)).
Proof.
  intros Hlt.
  assert (Hd : 0 < / (hi - lo)) by (apply Qinv_lt_0_compat; lra).
  unfold Qdiv. split; intros L.
  - apply Qmult_lt_compat_r; [exact Hd | lra].
  - apply Qmult_lt_r in L; [lra | exact Hd].
Qed.

Lemma Forall2_map_same {A B : Type} (R : B -> B -> Prop) (f g : A -> B)
    (l : list A) :
  (forall x, In x l -> R (f x) (g x)) -> Forall2 R (map f l) (map g l).
Proof.
  induction l as [|x l IH]; intros Hl; cbn [map]; constructor.
  - apply Hl. left; reflexivity.
  - apply IH. intros y Hy. apply Hl. right; exact Hy.
Qed.

Lemma not_constant_bounds (l : list Q) (lo hi x y : Q) :
  Forall (fun z => lo <= z /\ z <= hi) l -> In x l -> In y l -> x < y ->
  lo < hi.
Proof.
  intros Hb Hx Hy Hlt. rewrite Forall_forall in Hb.
  destruct (Hb x Hx) as [H1 _]. destruct (Hb y Hy) as [_ H2]. lra.
Qed.

(** X1. On an array that is not constant, [standardize] returns an array of
    the same dimensions whose entries all lie in [0, 1], with 0 and 1 both
    attained. *)
Theorem standardize_range (v : @volume Q) (x y : Q) :
  In x (voxels v) -> In y (voxels v) -> x < y ->
  exists s,
    standardize v = NpOk s
    /\ vol_h s = vol_h v /\ vol_w s = vol_w v /\ vol_d s = vol_d v
    /\ length (voxels s) = length (voxels v)
    /\ Forall in_unit (voxels s)
    /\ Exists (fun z => z == 0) (voxels s)
    /\ Exists (fun z => z == 1) (voxels s).
Proof.
  intros Hx Hy Hlt.
  destruct (standardize_ok v x Hx) as (lo & hi & _ & _ & Ilo & Ihi & Hb & E).
  pose proof (not_constant_bounds Hb Hx Hy Hlt) as Hlh.
  eexists; split; [exact E|]. cbn [vol_h vol_w vol_d voxels].
  repeat split.
  - apply length_map.
  - rewrite Forall_map. revert Hb. apply Forall_impl.
    intros z [H1 H2]. apply unit_scale; assumption.
  - apply Exists_exists. exists ((lo - lo) / (hi - lo)). split.
    + apply (in_map (fun z => (z - lo) / (hi - lo))). exact Ilo.
    + field. lra.
  - apply Exists_exists. exists ((hi - lo) / (hi - lo)). split.
    + apply (in_map (fun z => (z - lo) / (hi - lo))). exact Ihi.
    + field. lra.
Qed.

Lemma standardize_range_witness :
  exists s,
    standardize (mkVolume 1 1 3 [2; 6; 4]) = NpOk s
    /\ vol_h s = 1%nat /\ vol_w s = 1%nat /\ vol_d s = 3%nat
    /\ length (voxels s) = 3%nat
    /\ Forall in_unit (voxels s)
    /\ Exists (fun z => z == 0) (voxels s)
    /\ Exists (fun z => z == 1) (voxels s).
Proof.
  apply (@standardize_range (mkVolume 1 1 3 [2; 6; 4]) 2 6).
  - left; reflexivity.
  - right; left; reflexivity.
  - reflexivity.
Defined.

(** X2. In exact arithmetic [standardize] keeps the order of the entries: on
    an array that is not constant, entry i is below entry j after
    standardizing exactly when it was before. *)
Theorem standardize_keeps_order (v : @volume Q) (x y : Q) :
  In x (voxels v) -> In y (voxels v) -> x < y ->
  exists s,
    standardize v = NpOk s
    /\ forall i j a b a' b',
        nth_error (voxels v) i = Some a -> nth_error (voxels v) j = Some b ->
        nth_error (voxels s) i = Some a' -> nth_error (voxels s) j = Some b' ->
        (a < b <-> a' < b').
Proof.
  intros Hx Hy Hlt.
  destruct (standardize_ok v x Hx) as (lo & hi & _ & _ & _ & _ & Hb & E).
  pose proof (not_constant_bounds Hb Hx Hy Hlt) as Hlh.
  eexists; split; [exact E|]. cbn [voxels].
  intros i j a b a' b' Ea Eb Ea' Eb'.
  rewrite nth_error_map, Ea in Ea'. rewrite nth_error_map, Eb in Eb'.
  cbn [option_map] in *. injection Ea' as <-. injection Eb' as <-.
  apply scale_lt; exact Hlh.
Qed.

Lemma standardize_keeps_order_witness :
  exists s,
    standardize (mkVolume 1 1 3 [2; 6; 4]) = NpOk s
    /\ forall i j a b a' b',
        nth_error [2; 6; 4] i = Some a -> nth_error [2; 6; 4] j = Some b ->
        nth_error (voxels s) i = Some a' -> nth_error (voxels s) j = Some b' ->
        (a < b <-> a' < b').
Proof.
  apply (@standardize_keeps_order (mkVolume 1 1 3 [2; 6; 4]) 2 6).
  - left; reflexivity.
  - right; left; reflexivity.
  - reflexivity.
Defined.

(** [standardize] does not see a rescaling of its input by a positive factor
    and a shift. *)
Lemma standardize_affine (v w : @volume Q) (g : Q -> Q) (a b x y : Q) :
  0 < a -> (forall z, g z == a * z + b) ->
  voxels w = map g (voxels v) ->
  In x (voxels v) -> In y (voxels v) -> x < y ->
  exists sv sw,
    standardize v = NpOk sv /\ standardize w = NpOk sw
    /\ Forall2 Qeq (voxels sw) (voxels sv).
Proof.
  intros Ha Hg Ew Hx Hy Hlt.
  destruct (standardize_ok v x Hx) as (lo & hi & _ & _ & Ilo & Ihi & Hb & E).
  pose proof (not_constant_bounds Hb Hx Hy Hlt) as Hlh.
  assert (Hgx : In (g x) (voxels w)) by (rewrite Ew; apply in_map; exact Hx).
  destruct (standardize_ok w (g x) Hgx)
    as (lo' & hi' & _ & _ & Ilo' & Ihi' & Hb' & E').
  rewrite Forall_forall in Hb, Hb'.
  assert (Elo : lo' == a * lo + b).
  { rewrite Ew in Ilo'. apply in_map_iff in Ilo'.
    destruct Ilo' as (z & <- & Hz).
    assert (In (g lo) (voxels w)) by (rewrite Ew; apply in_map; exact Ilo).
    destruct (Hb' (g lo) H) as [L' _]. destruct (Hb z Hz) as [L _].
    rewrite (Hg z). rewrite (Hg z), (Hg lo) in L'.
    apply Qle_antisym; [exact L'|].
    apply (Qmult_le_l lo z a Ha) in L. lra. }
  assert (Ehi : hi' == a * hi + b).
  { rewrite Ew in Ihi'. apply in_map_iff in Ihi'.
    destruct Ihi' as (z & <- & Hz).
    assert (In (g hi) (voxels w)) by (rewrite Ew; apply in_map; exact Ihi).
    destruct (Hb' (g hi) H) as [_ U']. destruct (Hb z Hz) as [_ U].
    rewrite (Hg z). rewrite (Hg z), (Hg hi) in U'.
    apply Qle_antisym; [|exact U'].
    apply (Qmult_le_l z hi a Ha) in U. lra. }
  eexists; eexists. split; [exact E|]. split; [exact E'|].
  cbn [voxels]. rewrite Ew, map_map.
  apply Forall2_map_same. intros z _.
  rewrite Elo, Ehi, (Hg z). field. split; [lra|].
  assert (P : 0 < a * (hi - lo)) by (apply Qmult_lt_0_compat; lra).
  clear - P. lra.
Qed.

(** X3. In exact arithmetic, standardizing a normalized scan gives what
    standardizing the scan itself gives: when the scan is not constant and
    its deviation is positive, [standardize (normalize v)] and
    [standardize v] are equal as rationals, entry by entry. *)
Theorem standardize_after_normalize (sqrt : Q -> Q) (v : @volume Q)
    (x y : Q) :
  In x (voxels v) -> In y (voxels v) -> x < y ->
  0 < np.std sqrt (voxels v) ->
  exists s1 s2,
    standardize (normalize sqrt v) = NpOk s1 /\ standardize v = NpOk s2
    /\ vol_h s1 = vol_h s2 /\ vol_w s1 = vol_w s2 /\ vol_d s1 = vol_d s2
    /\ Forall2 Qeq (voxels s1) (voxels s2).
Proof.
  intros Hx Hy Hlt Hs.
  set (mu := np.mean (voxels v)). set (sd := np.std sqrt (voxels v)) in *.
  destruct (@standardize_affine v (normalize sqrt v)
              (fun z => (z - mu) / sd) (/ sd) (- mu / sd) x y)
    as (sv & sw & Ev & Ew & H2); try assumption.
  - apply Qinv_lt_0_compat; exact Hs.
  - intros z. field. lra.
  - reflexivity.
  - exists sw, sv. split; [exact Ew|]. split; [exact Ev|].
    destruct (standardize_ok v x Hx) as (lo & hi & _ & _ & _ & _ & _ & E).
    assert (Hx' : In ((x - mu) / sd) (voxels (normalize sqrt v)))
      by (apply (in_map (fun z => (z - mu) / sd)); exact Hx).
    destruct (standardize_ok _ _ Hx')
      as (lo' & hi' & _ & _ & _ & _ & _ & E').
    rewrite Ev in E. rewrite Ew in E'.
    injection E as ->. injection E' as ->.
    repeat split; try reflexivity. exact H2.
Qed.

Lemma standardize_after_normalize_witness :
  exists s1 s2,
    standardize
      (normalize (fun q => Z.sqrt (Qnum (Qred q)) # Pos.sqrt (Qden (Qred q)))
         (mkVolume 1 1 2 [0; 4])) = NpOk s1
    /\ standardize (mkVolume 1 1 2 [0; 4]) = NpOk s2
    /\ vol_h s1 = vol_h s2 /\ vol_w s1 = vol_w s2 /\ vol_d s1 = vol_d s2
    /\ Forall2 Qeq (voxels s1) (voxels s2).
Proof.
  apply (@standardize_after_normalize
           (fun q => Z.sqrt (Qnum (Qred q)) # Pos.sqrt (Qden (Qred q)))
           (mkVolume 1 1 2 [0; 4]) 0 4).
  - left; reflexivity.
  - right; left; reflexivity.
  - reflexivity.
  - vm_compute. reflexivity.
Defined.



Lemma inject_length_succ {A : Type} (x : A) (l : list A) :
  inject_Z (Z.of_nat (length (x :: l)))
  == inject_Z (Z.of_nat (length l)) + 1.
Proof.
  cbn [length]. rewrite Nat2Z.inj_succ. unfold Z.succ.
  rewrite inject_Z_plus. reflexivity.
Qed.

Lemma sum_map_centred (l : list Q) (mu sd : Q) :
  sum (map (fun x => (x - mu) / sd) l)
  == (sum l - inject_Z (Z.of_nat (length l)) * mu) / sd.
Proof.
  induction l as [|x l IH].
  - cbn [map length]. rewrite sum_nil. unfold Qdiv. ring.
  - cbn [map]. rewrite !sum_cons, IH, inject_length_succ.
    unfold Qdiv. ring.
Qed.

(** X5. In exact arithmetic [normalize] centres the scan: when the scan has
    an entry and its deviation is not zero, the normalized scan has the
    dimensions of the scan and its mean, as a rational, is zero. *)
Theorem normalize_mean_zero (sqrt : Q -> Q) (v : @volume Q) (x : Q) :
  In x (voxels v) -> ~ np.std sqrt (voxels v) == 0 ->
  np.mean (voxels (normalize sqrt v)) == 0
  /\ vol_h (normalize sqrt v) = vol_h v
  /\ vol_w (normalize sqrt v) = vol_w v
  /\ vol_d (normalize sqrt v) = vol_d v
  /\ length (voxels (normalize sqrt v)) = length (voxels v).
Proof.
  intros Hx Hs.
  split; [|repeat split; apply length_map].
  unfold normalize. cbn [voxels]. unfold np.mean at 1.
  rewrite sum_map_centred, length_map.
  set (n := inject_Z (Z.of_nat (length (voxels v)))).
  assert (Hn : 0 < n).
  { unfold n. destruct (voxels v) as [|a l]; [destruct Hx|].
    rewrite inject_length_succ.
    assert (0 <= inject_Z (Z.of_nat (length l))).
    { change 0 with (inject_Z 0). rewrite <- Zle_Qle. apply Nat2Z.is_nonneg. }
    lra. }
  unfold np.mean. fold n. field. split; [lra | exact Hs].
Qed.

Lemma normalize_mean_zero_witness :
  np.mean
    (voxels
       (normalize (fun q => Z.sqrt (Qnum (Qred q)) # Pos.sqrt (Qden (Qred q)))
          (mkVolume 1 1 2 [0; 4]))) == 0.
Proof.
  apply (@normalize_mean_zero
           (fun q => Z.sqrt (Qnum (Qred q)) # Pos.sqrt (Qden (Qred q)))
           (mkVolume 1 1 2 [0; 4]) 0).
  - left; reflexivity.
  - vm_compute. discriminate.
Defined.

(** ** Cropping the scan *)

Lemma flat_map_length_uniform {A B : Type} (f : A -> list B) (n : nat)
    (l : list A) :
  (forall x, In x l -> length (f x) = n) ->
  length (flat_map f l) = (length l * n)%nat.
Proof.
  induction l as [|x l IH]; intros Hl; cbn [flat_map length].
  - reflexivity.
  - rewrite length_app, IH by (intros y Hy; apply Hl; right; exact Hy).
    rewrite (Hl x) by (left; reflexivity). reflexivity.
Qed.

Lemma flat_map_nth_uniform {A B : Type} (f : A -> list B) (n : nat)
    (l : list A) (i j : nat) (a : A) (b : B) :
  (forall x, In x l -> length (f x) = n) ->
  (i < length l)%nat -> (j < n)%nat ->
  nth (i * n + j) (flat_map f l) b = nth j (f (nth i l a)) b.
Proof.
  revert i; induction l as [|x l IH]; intros i Hl Hi Hj;
    [simpl in Hi; lia|].
  cbn [flat_map]. assert (Lx : length (f x) = n) by (apply Hl; left; reflexivity).
  destruct i as [|i].
  - cbn [nth Nat.mul Nat.add]. rewrite app_nth1 by lia. reflexivity.
  - rewrite app_nth2 by (rewrite Lx; simpl; lia).
    replace (S i * n + j - length (f x))%nat with (i * n + j)%nat
      by (rewrite Lx; simpl; lia).
    cbn [nth]. apply IH; [|simpl in Hi; lia|exact Hj].
    intros y Hy. apply Hl. right; exact Hy.
Qed.

Section Crop.

Context {F : Type} `{Dtype F}.
Variable v : @volume F.

Lemma crop_row_length (i : nat) :
  length
    (flat_map (fun j => map (fun k => voxel v i j k) (seq 0 (vol_d v)))
       (seq 32 (vol_w v - 64)))
  = ((vol_w v - 64) * vol_d v)%nat.
Proof.
  rewrite (@flat_map_length_uniform _ _ _ (vol_d v)), length_seq;
    [reflexivity|].
  intros j _. rewrite length_map, length_seq. reflexivity.
Qed.

Lemma crop_length :
  length (voxels (crop v))
  = ((vol_h v - 64) * (vol_w v - 64) * vol_d v)%nat.
Proof.
  unfold crop. cbn [voxels].
  rewrite (@flat_map_length_uniform _ _ _ ((vol_w v - 64) * vol_d v)),
    length_seq.
  - lia.
  - intros i _. apply crop_row_length.
Qed.

Lemma crop_voxel (i j k : nat) :
  (i < vol_h v - 64)%nat -> (j < vol_w v - 64)%nat -> (k < vol_d v)%nat ->
  voxel (crop v) i j k = voxel v (i + 32) (j + 32) k.
Proof.
  intros Hi Hj Hk.
  unfold voxel at 1. unfold crop. cbn [voxels vol_w vol_d].
  replace ((i * (vol_w v - 64) + j) * vol_d v + k)%nat
    with (i * ((vol_w v - 64) * vol_d v) + (j * vol_d v + k))%nat by lia.
  assert (Hjk : (j * vol_d v + k < (vol_w v - 64) * vol_d v)%nat) by nia.
  rewrite (@flat_map_nth_uniform _ _ _ ((vol_w v - 64) * vol_d v)
             (seq 32 (vol_h v - 64)) i (j * vol_d v + k) 0%nat (of_int 0)
             (fun x _ => crop_row_length x)
             ltac:(rewrite length_seq; exact Hi) Hjk).
  rewrite seq_nth by exact Hi.
  rewrite (@flat_map_nth_uniform _ _
             (fun j0 => map (fun k0 => voxel v (32 + i) j0 k0)
                            (seq 0 (vol_d v)))
             (vol_d v) (seq 32 (vol_w v - 64)) j k 0%nat (of_int 0)).
  - rewrite seq_nth by exact Hj.
    rewrite (nth_indep _ (of_int 0) (voxel v (32 + i) (32 + j) 0))
      by (rewrite length_map, length_seq; exact Hk).
    rewrite (map_nth (fun k0 => voxel v (32 + i) (32 + j) k0)).
    rewrite seq_nth by exact Hk.
    rewrite (Nat.add_comm 32 i), (Nat.add_comm 32 j). reflexivity.
  - intros j0 _. rewrite length_map, length_seq. reflexivity.
  - rewrite length_seq. exact Hj.
  - exact Hk.
Qed.

End Crop.

(** X6. The crop [subject_mri[32:-32, 32:-32]] drops 32 rows and 32 columns
    on each side and keeps every slice: it has (h - 64) x (w - 64) x d
    well-formed voxels, the voxel (i, j, k) of the crop is the voxel
    (i + 32, j + 32, k) of the scan, and a 400 x 400 x 180 scan becomes a
    336 x 336 x 180 one, the shape the notebook prints. *)
Theorem crop_keeps_the_centre {F : Type} `{Dtype F} (v : @volume F) :
  vol_h (crop v) = (vol_h v - 64)%nat
  /\ vol_w (crop v) = (vol_w v - 64)%nat
  /\ vol_d (crop v) = vol_d v
  /\ wf_volume (crop v)
  /\ (forall i j k,
         (i < vol_h v - 64)%nat -> (j < vol_w v - 64)%nat ->
         (k < vol_d v)%nat ->
         voxel (crop v) i j k = voxel v (i + 32) (j + 32) k)
  /\ (vol_h v = 400%nat -> vol_w v = 400%nat -> vol_d v = 180%nat ->
      (vol_h (crop v), vol_w (crop v), vol_d (crop v))
      = (336, 336, 180)%nat).
Proof.
  split; [reflexivity|]. split; [reflexivity|]. split; [reflexivity|].
  split; [unfold wf_volume; rewrite crop_length; reflexivity|].
  split; [apply crop_voxel|].
  intros Eh Ew Ed. cbn [crop vol_h vol_w vol_d]. rewrite Eh, Ew, Ed.
  reflexivity.
Qed.

Lemma crop_keeps_the_centre_witness :
  voxel (crop (mkVolume 65 66 2
                 (map (fun n => inject_Z (Z.of_nat n)) (seq 0 (65 * 66 * 2)))))
    0 1 1
  = voxel (mkVolume 65 66 2
             (map (fun n => inject_Z (Z.of_nat n)) (seq 0 (65 * 66 * 2))))
      32 33 1.
Proof.
  apply (proj1 (proj2 (proj2 (proj2 (proj2
           (@crop_keeps_the_centre Q Q_dtype
              (mkVolume 65 66 2
                 (map (fun n => inject_Z (Z.of_nat n)) (seq 0 (65 * 66 * 2))))))))) 
           0%nat 1%nat 1%nat); cbn [vol_h vol_w vol_d]; lia.
Defined.

(** ** When the preparation of a scan fails *)

Lemma standardize_raises_iff (v : @volume Q) :
  standardize v = NpRaise (ZeroSizeReduction "minimum") <-> voxels v = [].
Proof.
  split.
  - destruct (voxels v) as [|x l] eqn:E; [reflexivity|].
    intros R. destruct (standardize_ok v x) as (lo & hi & _ & _ & _ & _ & _ & E').
    + rewrite E. left; reflexivity.
    + rewrite E' in R. discriminate R.
  - intros E. unfold standardize. rewrite E. reflexivity.
Qed.

(** X7. Preparing a scan fails exactly when the crop leaves nothing: the
    pipeline [standardize (normalize (crop scan))] raises numpy's zero-size
    error on [min] when the scan has at most 64 rows, at most 64 columns or
    no slice, and returns an array of the cropped dimensions on every other
    scan. *)
Theorem standardized_scan_fails_when_small (sqrt : Q -> Q) (v : @volume Q) :
  ((vol_h v <= 64 \/ vol_w v <= 64 \/ vol_d v = 0)%nat ->
   standardized_scan sqrt v = NpRaise (ZeroSizeReduction "minimum"))
  /\ ((64 < vol_h v)%nat -> (64 < vol_w v)%nat -> (0 < vol_d v)%nat ->
      exists s,
        standardized_scan sqrt v = NpOk s
        /\ vol_h s = (vol_h v - 64)%nat /\ vol_w s = (vol_w v - 64)%nat
        /\ vol_d s = vol_d v
        /\ length (voxels s)
           = ((vol_h v - 64) * (vol_w v - 64) * vol_d v)%nat).
Proof.
  assert (L : length (voxels (normalize sqrt (crop v)))
              = ((vol_h v - 64) * (vol_w v - 64) * vol_d v)%nat).
  { unfold normalize. cbn [voxels]. rewrite length_map. apply crop_length. }
  unfold standardized_scan. split.
  - intros Hs. apply standardize_raises_iff, length_zero_iff_nil.
    rewrite L. nia.
  - intros Hh Hw Hd.
    destruct (voxels (normalize sqrt (crop v))) as [|x l] eqn:Ev.
    + cbn [length] in L. nia.
    + destruct (standardize_ok (normalize sqrt (crop v)) x)
        as (lo & hi & _ & _ & _ & _ & _ & E').
      * rewrite Ev. left; reflexivity.
      * eexists; split; [exact E'|]. cbn [vol_h vol_w vol_d voxels].
        repeat split. rewrite length_map, Ev. exact L.
Qed.

Lemma standardized_scan_fails_when_small_witness :
  standardized_scan (fun q => q) (mkVolume 64 100 3 (repeat 1 (64 * 100 * 3)))
  = NpRaise (ZeroSizeReduction "minimum")
  /\ exists s,
      standardized_scan (fun q => q)
        (mkVolume 65 66 2
           (map (fun n => inject_Z (Z.of_nat n)) (seq 0 (65 * 66 * 2))))
      = NpOk s
      /\ vol_h s = 1%nat /\ vol_w s = 2%nat /\ vol_d s = 2%nat
      /\ length (voxels s) = 4%nat.
Proof.
  split.
  - apply (proj1 (@standardized_scan_fails_when_small (fun q => q)
                    (mkVolume 64 100 3 (repeat 1 (64 * 100 * 3))))).
    left. cbn [vol_h]. lia.
  - apply (proj2 (@standardized_scan_fails_when_small (fun q => q)
                    (mkVolume 65 66 2
                       (map (fun n => inject_Z (Z.of_nat n))
                            (seq 0 (65 * 66 * 2))))));
      cbn [vol_h vol_w vol_d]; lia.
Defined.

(** ** Indexing and batches *)

Lemma numel_of_cons (d : nat) (s : list nat) :
  numel_of (d :: s) = (d * numel_of s)%nat.
Proof. reflexivity. Qed.

Lemma index0_unsqueeze0 {A : Type} (x : tensor A) :
  wf_tensor x -> index0 (unsqueeze0 x) = Ok x.
Proof.
  unfold wf_tensor, index0, unsqueeze0. cbn [shape data]. intros W.
  rewrite <- W, firstn_all. destruct x; reflexivity.
Qed.

Lemma index00_shape {A : Type} (x y : tensor A) :
  index00 x = Ok y ->
  exists n c, shape x = S n :: S c :: shape y
              /\ data y = firstn (numel_of (shape y)) (data x).
Proof.
  unfold index00, index0, bind.
  destruct (shape x) as [|[|n] [|[|c] s]]; cbn [shape data];
    try discriminate.
  intros E; injection E as <-. cbn [shape data].
  exists n, c. split; [reflexivity|].
  rewrite firstn_firstn. f_equal. apply Nat.min_l. lia.
Qed.

Lemma index00_raises {A : Type} (x : tensor A) (e : exn) :
  index00 x = Raise e -> e = IndexError 0 0 /\ ~ batched x.
Proof.
  intros E. split.
  - unfold index00, index0, bind in E.
    destruct (shape x) as [|[|n] [|[|c] s]]; cbn [shape] in E;
      congruence.
  - intros B. destruct (index00_batched B) as (y & Ey). congruence.
Qed.

Lemma index00_not_batched {A : Type} (x : tensor A) :
  ~ batched x -> index00 x = Raise (IndexError 0 0).
Proof.
  intros Nb. destruct (index00 x) as [y|e] eqn:E.
  - exfalso. apply Nb. destruct (index00_shape _ E) as (n & c & Es & _).
    exists n, c, (shape y). exact Es.
  - apply index00_raises in E. destruct E as [-> _]. reflexivity.
Qed.

(** X8. [x[0][0]] exists exactly for a batch of images (two leading
    dimensions, both non-empty) and raises an index error otherwise.  It has
    the trailing shape and holds the first entries of [x] in storage order,
    so it is well-formed when [x] is; and it undoes two [unsqueeze(0)]. *)
Theorem index00_first_image {A : Type} (x : tensor A) :
  (batched x <-> exists y, index00 x = Ok y)
  /\ (~ batched x -> index00 x = Raise (IndexError 0 0))
  /\ (forall y, index00 x = Ok y ->
        (exists n c, shape x = S n :: S c :: shape y)
        /\ data y = firstn (numel_of (shape y)) (data x)
        /\ (wf_tensor x -> wf_tensor y))
  /\ (wf_tensor x -> index00 (unsqueeze0 (unsqueeze0 x)) = Ok x).
Proof.
  split; [|split; [|split]].
  - split; [apply index00_batched|].
    intros (y & E). destruct (index00_shape _ E) as (n & c & Es & _).
    exists n, c, (shape y). exact Es.
  - apply index00_not_batched.
  - intros y E. destruct (index00_shape _ E) as (n & c & Es & Ed).
    split; [exists n, c; exact Es|]. split; [exact Ed|].
    unfold wf_tensor. intros W. rewrite Ed, length_firstn, W, Es.
    rewrite !numel_of_cons. nia.
  - intros W. unfold index00, bind.
    rewrite index0_unsqueeze0; [apply index0_unsqueeze0; exact W|].
    unfold wf_tensor, unsqueeze0 in *. cbn [shape data].
    rewrite numel_of_cons. lia.
Qed.

Lemma index00_first_image_witness :
  index00 (tensor_1d [1; 2; 3]) = Raise (IndexError 0 0)
  /\ index00 (unsqueeze0 (unsqueeze0 (tensor_1d [1; 2; 3])))
     = Ok (tensor_1d [1; 2; 3]).
Proof.
  split.
  - apply (proj1 (proj2 (@index00_first_image Q (tensor_1d [1; 2; 3])))).
    intros (n & c & s & E). discriminate E.
  - apply (proj2 (proj2 (proj2 (@index00_first_image Q
                                  (tensor_1d [1; 2; 3]))))).
    reflexivity.
Defined.

(** ** When a step fails *)

Section StepFailures.

Context {F : Type} `{Dtype F}.
Variable UNet : tensor F -> tensor F.
Variable sigmoid : F -> F.

Import AtriumSegmentation.

Lemma log_images_no_image (mri pred mask : tensor F) (name : string)
    (st : module_state) :
  ~ batched mri ->
  log_images mri pred mask name st = Raise (IndexError 0 0).
Proof.
  intros Nb. rewrite log_images_cases, (index00_not_batched Nb).
  reflexivity.
Qed.

Lemma log_images_bad_image (mri pred mask image : tensor F) (name : string)
    (st : module_state) :
  index00 mri = Ok image -> valid_image_shape (shape image) = false ->
  log_images mri pred mask name st = Raise (TypeError (shape image)).
Proof.
  intros E V. rewrite log_images_cases, E, V. reflexivity.
Qed.

Lemma log_images_raises (mri pred mask : tensor F) (name : string)
    (st : module_state) :
  ~ (drawable mri /\ drawable mask /\ drawable pred) ->
  exists e,
    log_images mri pred mask name st = Raise e
    /\ (e = IndexError 0 0 \/ exists s, e = TypeError s).
Proof.
  intros Nd. rewrite log_images_cases.
  destruct (index00 mri) as [image|e] eqn:E1;
    [|apply index00_raises in E1; destruct E1 as [-> _];
      eexists; split; [reflexivity | left; reflexivity]].
  destruct (valid_image_shape (shape image)) eqn:V1;
    [|eexists; split; [reflexivity | right; eexists; reflexivity]].
  destruct (index00 mask) as [mask00|e] eqn:E2;
    [|apply index00_raises in E2; destruct E2 as [-> _];
      eexists; split; [reflexivity | left; reflexivity]].
  destruct (valid_image_shape (shape mask00)) eqn:V2;
    [|eexists; split; [reflexivity | right; eexists; reflexivity]].
  destruct (index00 pred) as [pred00|e] eqn:E3;
    [|apply index00_raises in E3; destruct E3 as [-> _];
      eexists; split; [reflexivity | left; reflexivity]].
  destruct (valid_image_shape (shape pred00)) eqn:V3;
    [|eexists; split; [reflexivity | right; eexists; reflexivity]].
  exfalso. apply Nd.
  repeat split; eexists; split; eassumption.
Qed.

Lemma step_loss_raises (mri mask : tensor F) (batch_idx : Z)
    (st : module_state) (e : exn) :
  DiceLoss.forward (forward UNet sigmoid mri) mask = Raise e ->
  training_step UNet sigmoid (mri, mask) batch_idx st = Raise e
  /\ validation_step UNet sigmoid (mri, mask) batch_idx st = Raise e.
Proof.
  intros E. unfold training_step, validation_step, bindM, lift, float.
  rewrite E. split; reflexivity.
Qed.

Lemma step_without_figure (mri mask : tensor F) (batch_idx : Z)
    (st : module_state) (loss : F) :
  DiceLoss.forward (forward UNet sigmoid mri) mask = Ok loss ->
  ((batch_idx mod 50 <> 0)%Z ->
   training_step UNet sigmoid (mri, mask) batch_idx st
   = Ok (loss, mkState (global_step st)
                 (emitted st ++ [Log "Train Dice" loss])))
  /\ ((batch_idx mod 2 <> 0)%Z ->
      validation_step UNet sigmoid (mri, mask) batch_idx st
      = Ok (loss, mkState (global_step st)
                    (emitted st ++ [Log "Val Dice" loss]))).
Proof.
  intros E. unfold training_step, validation_step, bindM, lift, float, log,
    emit, ret.
  rewrite E. split; intros N; apply Z.eqb_neq in N; rewrite N; reflexivity.
Qed.

(** A step on which a figure is due ends as [log_images] does, after the
    loss has been logged. *)
Lemma step_with_figure (mri mask : tensor F) (batch_idx : Z)
    (st : module_state) (loss : F) :
  DiceLoss.forward (forward UNet sigmoid mri) mask = Ok loss ->
  ((batch_idx mod 50 = 0)%Z ->
   training_step UNet sigmoid (mri, mask) batch_idx st
   = match log_images mri (forward UNet sigmoid mri) mask "Train"
             (mkState (global_step st)
                (emitted st ++ [Log "Train Dice" loss])) with
     | Ok (_, st') => Ok (loss, st')
     | Raise e => Raise e
     end)
  /\ ((batch_idx mod 2 = 0)%Z ->
      validation_step UNet sigmoid (mri, mask) batch_idx st
      = match log_images mri (forward UNet sigmoid mri) mask "Val"
                (mkState (global_step st)
                   (emitted st ++ [Log "Val Dice" loss])) with
        | Ok (_, st') => Ok (loss, st')
        | Raise e => Raise e
        end).
Proof.
  intros E. unfold training_step, validation_step, bindM, lift, float, log,
    emit, ret.
  rewrite E. split; intros Z0; apply Z.eqb_eq in Z0; rewrite Z0;
    destruct (log_images _ _ _ _ _) as [[u st']|e]; reflexivity.
Qed.

Lemma step_figure_no_image (mri mask : tensor F) (batch_idx : Z)
    (st : module_state) (loss : F) :
  DiceLoss.forward (forward UNet sigmoid mri) mask = Ok loss ->
  ~ batched mri ->
  ((batch_idx mod 50 = 0)%Z ->
   training_step UNet sigmoid (mri, mask) batch_idx st
   = Raise (IndexError 0 0))
  /\ ((batch_idx mod 2 = 0)%Z ->
      validation_step UNet sigmoid (mri, mask) batch_idx st
      = Raise (IndexError 0 0)).
Proof.
  intros E Nb. destruct (step_with_figure mri mask batch_idx st E) as [T V].
  split; intros Z0; [rewrite (T Z0) | rewrite (V Z0)];
    rewrite (@log_images_no_image mri _ mask _ _ Nb); reflexivity.
Qed.

Lemma step_figure_bad_image (mri mask image : tensor F) (batch_idx : Z)
    (st : module_state) (loss : F) :
  DiceLoss.forward (forward UNet sigmoid mri) mask = Ok loss ->
  index00 mri = Ok image -> valid_image_shape (shape image) = false ->
  ((batch_idx mod 50 = 0)%Z ->
   training_step UNet sigmoid (mri, mask) batch_idx st
   = Raise (TypeError (shape image)))
  /\ ((batch_idx mod 2 = 0)%Z ->
      validation_step UNet sigmoid (mri, mask) batch_idx st
      = Raise (TypeError (shape image))).
Proof.
  intros E Ei Vi. destruct (step_with_figure mri mask batch_idx st E) as [T V].
  split; intros Z0; [rewrite (T Z0) | rewrite (V Z0)];
    rewrite (@log_images_bad_image mri _ mask image _ _ Ei Vi); reflexivity.
Qed.

Lemma step_figure_raises (mri mask : tensor F) (batch_idx : Z)
    (st : module_state) (loss : F) :
  DiceLoss.forward (forward UNet sigmoid mri) mask = Ok loss ->
  ~ (drawable mri /\ drawable mask /\ drawable (forward UNet sigmoid mri)) ->
  ((batch_idx mod 50 = 0)%Z ->
   exists e,
     training_step UNet sigmoid (mri, mask) batch_idx st = Raise e
     /\ (e = IndexError 0 0 \/ exists s, e = TypeError s))
  /\ ((batch_idx mod 2 = 0)%Z ->
      exists e,
        validation_step UNet sigmoid (mri, mask) batch_idx st = Raise e
        /\ (e = IndexError 0 0 \/ exists s, e = TypeError s)).
Proof.
  intros E Nd. destruct (step_with_figure mri mask batch_idx st E) as [T V].
  split; intros Z0; [rewrite (T Z0) | rewrite (V Z0)].
  - destruct (@log_images_raises mri (forward UNet sigmoid mri) mask
                "Train"%string
                (mkState (global_step st)
                   (emitted st ++ [Log "Train Dice" loss])) Nd)
      as (e & -> & He).
    exists e. split; [reflexivity | exact He].
  - destruct (@log_images_raises mri (forward UNet sigmoid mri) mask
                "Val"%string
                (mkState (global_step st)
                   (emitted st ++ [Log "Val Dice" loss])) Nd)
      as (e & -> & He).
    exists e. split; [reflexivity | exact He].
Qed.

Lemma step_figure_sent (mri mask : tensor F) (batch_idx : Z)
    (st : module_state) (loss : F) :
  DiceLoss.forward (forward UNet sigmoid mri) mask = Ok loss ->
  image_batch mri -> image_batch mask ->
  image_batch (forward UNet sigmoid mri) ->
  ((batch_idx mod 50 = 0)%Z ->
   exists fig,
     training_step UNet sigmoid (mri, mask) batch_idx st
     = Ok (loss, mkState (global_step st)
                   (emitted st ++ [Log "Train Dice" loss;
                                   AddFigure "Train" fig (global_step st)])))
  /\ ((batch_idx mod 2 = 0)%Z ->
      exists fig,
        validation_step UNet sigmoid (mri, mask) batch_idx st
        = Ok (loss, mkState (global_step st)
                      (emitted st ++ [Log "Val Dice" loss;
                                      AddFigure "Val" fig (global_step st)]))).
Proof.
  intros E Bi Bm Bp.
  destruct (index00_image_batch Bi) as (image & E1 & V1).
  destruct (index00_image_batch Bm) as (mask00 & E2 & V2).
  destruct (index00_image_batch Bp) as (pred00 & E3 & V3).
  destruct (step_with_figure mri mask batch_idx st E) as [T V].
  split; intros Z0; [rewrite (T Z0) | rewrite (V Z0)];
    rewrite (@log_images_ok F _ _ _ _ _ _ _ _ _ E1 E2 E3 V1 V2 V3);
    cbn [global_step emitted]; rewrite <- app_assoc;
    eexists; reflexivity.
Qed.

End StepFailures.

(** X9. How a step ends, case by case.  If the loss raises, both steps raise
    the same error.  If the loss is computed and no figure is due, the step
    logs the loss and returns it, whatever the shapes.  If a figure is due
    (batch index a multiple of 50 in training, of 2 in validation): when
    [mri[0][0]] does not exist the step raises an index error; when it
    exists but is not image data the step raises the type error naming its
    shape; whenever one of the three slices is missing or not image data the
    step raises an index or a type error; and on batches of images (samples,
    channels, rows, columns, none empty) the step returns the loss after
    sending the loss and then one figure. *)
Theorem step_failures {F : Type} `{Dtype F}
    (UNet : tensor F -> tensor F) (sigmoid : F -> F)
    (mri mask : tensor F) (batch_idx : Z)
    (st : @AtriumSegmentation.module_state F) :
  (forall e,
      DiceLoss.forward (AtriumSegmentation.forward UNet sigmoid mri) mask
      = Raise e ->
      AtriumSegmentation.training_step UNet sigmoid (mri, mask) batch_idx st
      = Raise e
      /\ AtriumSegmentation.validation_step UNet sigmoid (mri, mask)
           batch_idx st = Raise e)
  /\ (forall loss,
         DiceLoss.forward (AtriumSegmentation.forward UNet sigmoid mri) mask
         = Ok loss ->
         ((batch_idx mod 50 <> 0)%Z ->
          AtriumSegmentation.training_step UNet sigmoid (mri, mask)
            batch_idx st
          = Ok (loss,
                AtriumSegmentation.mkState
                  (AtriumSegmentation.global_step st)
                  (AtriumSegmentation.emitted st
                   ++ [AtriumSegmentation.Log "Train Dice" loss])))
         /\ ((batch_idx mod 2 <> 0)%Z ->
             AtriumSegmentation.validation_step UNet sigmoid (mri, mask)
               batch_idx st
             = Ok (loss,
                   AtriumSegmentation.mkState
                     (AtriumSegmentation.global_step st)
                     (AtriumSegmentation.emitted st
                      ++ [AtriumSegmentation.Log "Val Dice" loss]))))
  /\ (forall loss,
         DiceLoss.forward (AtriumSegmentation.forward UNet sigmoid mri) mask
         = Ok loss ->
         ~ batched mri ->
         ((batch_idx mod 50 = 0)%Z ->
          AtriumSegmentation.training_step UNet sigmoid (mri, mask)
            batch_idx st = Raise (IndexError 0 0))
         /\ ((batch_idx mod 2 = 0)%Z ->
             AtriumSegmentation.validation_step UNet sigmoid (mri, mask)
               batch_idx st = Raise (IndexError 0 0)))
  /\ (forall loss image,
         DiceLoss.forward (AtriumSegmentation.forward UNet sigmoid mri) mask
         = Ok loss ->
         index00 mri = Ok image ->
         valid_image_shape (shape image) = false ->
         ((batch_idx mod 50 = 0)%Z ->
          AtriumSegmentation.training_step UNet sigmoid (mri, mask)
            batch_idx st = Raise (TypeError (shape image)))
         /\ ((batch_idx mod 2 = 0)%Z ->
             AtriumSegmentation.validation_step UNet sigmoid (mri, mask)
               batch_idx st = Raise (TypeError (shape image))))
  /\ (forall loss,
         DiceLoss.forward (AtriumSegmentation.forward UNet sigmoid mri) mask
         = Ok loss ->
         ~ (drawable mri /\ drawable mask
            /\ drawable (AtriumSegmentation.forward UNet sigmoid mri)) ->
         ((batch_idx mod 50 = 0)%Z ->
          exists e,
            AtriumSegmentation.training_step UNet sigmoid (mri, mask)
              batch_idx st = Raise e
            /\ (e = IndexError 0 0 \/ exists s, e = TypeError s))
         /\ ((batch_idx mod 2 = 0)%Z ->
             exists e,
               AtriumSegmentation.validation_step UNet sigmoid (mri, mask)
                 batch_idx st = Raise e
               /\ (e = IndexError 0 0 \/ exists s, e = TypeError s)))
  /\ (forall loss,
         DiceLoss.forward (AtriumSegmentation.forward UNet sigmoid mri) mask
         = Ok loss ->
         image_batch mri -> image_batch mask ->
         image_batch (AtriumSegmentation.forward UNet sigmoid mri) ->
         ((batch_idx mod 50 = 0)%Z ->
          exists fig,
            AtriumSegmentation.training_step UNet sigmoid (mri, mask)
              batch_idx st
            = Ok (loss,
                  AtriumSegmentation.mkState
                    (AtriumSegmentation.global_step st)
                    (AtriumSegmentation.emitted st
                     ++ [AtriumSegmentation.Log "Train Dice" loss;
                         AtriumSegmentation.AddFigure "Train" fig
                           (AtriumSegmentation.global_step st)])))
         /\ ((batch_idx mod 2 = 0)%Z ->
             exists fig,
               AtriumSegmentation.validation_step UNet sigmoid (mri, mask)
                 batch_idx st
               = Ok (loss,
                     AtriumSegmentation.mkState
                       (AtriumSegmentation.global_step st)
                       (AtriumSegmentation.emitted st
                        ++ [AtriumSegmentation.Log "Val Dice" loss;
                            AtriumSegmentation.AddFigure "Val" fig
                              (AtriumSegmentation.global_step st)])))).
Proof.
  split; [|split; [|split; [|split; [|split]]]].
  - intros e. apply step_loss_raises.
  - intros loss. apply step_without_figure.
  - intros loss. apply step_figure_no_image.
  - intros loss image. apply step_figure_bad_image.
  - intros loss. apply step_figure_raises.
  - intros loss. apply step_figure_sent.
Qed.

Lemma step_failures_witness :
  AtriumSegmentation.training_step (fun x => x) (fun p => p)
    (tensor_1d [1; 1; 0; 0], tensor_1d [1; 0; 0])
    7 (AtriumSegmentation.mkState 0 [])
  = Raise (SizeMismatch 4 3 0)
  /\ (exists loss,
         AtriumSegmentation.training_step (fun x => x) (fun p => p)
           (tensor_1d [1; 0], tensor_1d [1; 0])
           7 (AtriumSegmentation.mkState 0 [])
         = Ok (loss,
               AtriumSegmentation.mkState 0
                 [AtriumSegmentation.Log "Train Dice" loss]))
  /\ AtriumSegmentation.training_step (fun x => x) (fun p => p)
       (tensor_1d [1; 0], tensor_1d [1; 0])
       100 (AtriumSegmentation.mkState 0 [])
     = Raise (IndexError 0 0)
  /\ AtriumSegmentation.training_step (fun x => x) (fun p => p)
       (mkTensor [1; 2]%nat [1; 0], mkTensor [1; 2]%nat [1; 0])
       100 (AtriumSegmentation.mkState 0 [])
     = Raise (TypeError [])
  /\ (exists e,
         AtriumSegmentation.validation_step (fun x => x) (fun p => p)
           (mkTensor [1; 1; 1; 2]%nat [1; 0], mkTensor [1; 2]%nat [1; 0])
           4 (AtriumSegmentation.mkState 0 []) = Raise e
         /\ (e = IndexError 0 0 \/ exists s, e = TypeError s))
  /\ (exists fig,
         AtriumSegmentation.validation_step (fun x => x) (fun p => p)
           (mkTensor [1; 1; 1; 2]%nat [1; 0],
            mkTensor [1; 1; 1; 2]%nat [1; 0])
           4 (AtriumSegmentation.mkState 0 [])
         = Ok (1 # 200000001,
               AtriumSegmentation.mkState 0
                 [AtriumSegmentation.Log "Val Dice" (1 # 200000001);
                  AtriumSegmentation.AddFigure "Val" fig 0])).
Proof.
  split; [|split; [|split; [|split; [|split]]]].
  - apply (proj1 (@step_failures Q Q_dtype (fun x => x) (fun p => p)
                    (tensor_1d [1; 1; 0; 0]) (tensor_1d [1; 0; 0]) 7%Z
                    (AtriumSegmentation.mkState 0 []))).
    reflexivity.
  - eexists.
    apply (proj1 (proj2 (@step_failures Q Q_dtype (fun x => x) (fun p => p)
                           (tensor_1d [1; 0]) (tensor_1d [1; 0]) 7%Z
                           (AtriumSegmentation.mkState 0 [])))).
    + vm_compute. reflexivity.
    + discriminate.
  - apply (proj1 (proj2 (proj2
             (@step_failures Q Q_dtype (fun x => x) (fun p => p)
                (tensor_1d [1; 0]) (tensor_1d [1; 0]) 100%Z
                (AtriumSegmentation.mkState 0 []))))
             (1 # 200000001)).
    + vm_compute. reflexivity.
    + intros (n & c & s & E). discriminate E.
    + reflexivity.
  - apply (proj1 (proj2 (proj2 (proj2
             (@step_failures Q Q_dtype (fun x => x) (fun p => p)
                (mkTensor [1; 2]%nat [1; 0]) (mkTensor [1; 2]%nat [1; 0])
                100%Z (AtriumSegmentation.mkState 0 [])))))
             (1 # 200000001) (mkTensor []%nat [1])).
    + vm_compute. reflexivity.
    + reflexivity.
    + reflexivity.
    + reflexivity.
  - apply (proj1 (proj2 (proj2 (proj2 (proj2
             (@step_failures Q Q_dtype (fun x => x) (fun p => p)
                (mkTensor [1; 1; 1; 2]%nat [1; 0])
                (mkTensor [1; 2]%nat [1; 0])
                4%Z (AtriumSegmentation.mkState 0 []))))))
             (1 # 200000001)).
    + vm_compute. reflexivity.
    + intros (_ & (y & E & V) & _). vm_compute in E.
      injection E as <-. discriminate V.
    + reflexivity.
  - apply (proj2 (proj2 (proj2 (proj2 (proj2
             (@step_failures Q Q_dtype (fun x => x) (fun p => p)
                (mkTensor [1; 1; 1; 2]%nat [1; 0])
                (mkTensor [1; 1; 1; 2]%nat [1; 0])
                4%Z (AtriumSegmentation.mkState 0 []))))))
             (1 # 200000001)).
    + vm_compute. reflexivity.
    + exists 0%nat, 0%nat, 0%nat, 1%nat. reflexivity.
    + exists 0%nat, 0%nat, 0%nat, 1%nat. reflexivity.
    + exists 0%nat, 0%nat, 0%nat, 1%nat. reflexivity.
    + reflexivity.
Defined.

(** ** The figure of [log_images] *)

(** X10. When [log_images] returns, it has sent exactly one figure, under the
    given tag and at the current global step, which it leaves unchanged.
    Both axes of the figure show [mri[0][0]], the first image and channel of
    the batch; the left overlay has the shape of [mask[0][0]] and hides
    exactly the entries of it that equal zero. *)
Theorem log_images_figure {F : Type} `{Dtype F}
    (mri pred mask : tensor F) (name : string)
    (st st' : @AtriumSegmentation.module_state F) (u : unit) :
  AtriumSegmentation.log_images mri pred mask name st = Ok (u, st') ->
  AtriumSegmentation.global_step st' = AtriumSegmentation.global_step st
  /\ exists fig image mask00,
      AtriumSegmentation.emitted st'
      = AtriumSegmentation.emitted st
        ++ [AtriumSegmentation.AddFigure name fig
              (AtriumSegmentation.global_step st)]
      /\ index00 mri = Ok image /\ index00 mask = Ok mask00
      /\ AtriumSegmentation.axis0_image fig = image
      /\ AtriumSegmentation.axis1_image fig = image
      /\ shape (AtriumSegmentation.axis0_overlay fig) = shape mask00
      /\ forall j m,
          nth_error (data mask00) j = Some m ->
          nth_error (data (AtriumSegmentation.axis0_overlay fig)) j
          = Some (if eqb0 m then None else Some m).
Proof.
  intros E. apply log_images_inv in E.
  destruct E as (image & mask00 & pred00 & E1 & E2 & _ & ->).
  cbn [AtriumSegmentation.global_step AtriumSegmentation.emitted].
  split; [reflexivity|].
  eexists; exists image, mask00.
  split; [reflexivity|]. split; [exact E1|]. split; [exact E2|].
  cbn [AtriumSegmentation.axis0_image AtriumSegmentation.axis1_image
       AtriumSegmentation.axis0_overlay].
  split; [reflexivity|]. split; [reflexivity|]. split; [reflexivity|].
  intros j m Ej. unfold masked_where_eq0, tensor_map. cbn [data].
  rewrite nth_error_map, Ej. reflexivity.
Qed.

Lemma log_images_figure_witness :
  exists fig image mask00,
    index00 (mkTensor [1; 1; 1; 2]%nat [3 # 4; 1 # 4]) = Ok image
    /\ index00 (mkTensor [1; 1; 1; 2]%nat [1; 0]) = Ok mask00
    /\ AtriumSegmentation.axis0_image fig = image
    /\ data (AtriumSegmentation.axis0_overlay fig) = [Some 1; None].
Proof.
  destruct (@log_images_figure Q Q_dtype
              (mkTensor [1; 1; 1; 2]%nat [3 # 4; 1 # 4])
              (mkTensor [1; 1; 1; 2]%nat [3 # 4; 1 # 4])
              (mkTensor [1; 1; 1; 2]%nat [1; 0])
              "Val" (AtriumSegmentation.mkState 3 [])
              (AtriumSegmentation.mkState 3
                 [AtriumSegmentation.AddFigure "Val"
                    (AtriumSegmentation.mkFigure
                       (mkTensor [1; 2]%nat [3 # 4; 1 # 4])
                       (mkTensor [1; 2]%nat [Some 1; None])
                       (mkTensor [1; 2]%nat [3 # 4; 1 # 4])
                       (mkTensor [1; 2]%nat [Some true; None]))
                    3])
              tt eq_refl)
    as (_ & fig & image & mask00 & Ee & E1 & E2 & A0 & _ & _ & _).
  cbn [AtriumSegmentation.emitted app] in Ee.
  injection Ee as <-.
  exists (AtriumSegmentation.mkFigure
            (mkTensor [1; 2]%nat [3 # 4; 1 # 4])
            (mkTensor [1; 2]%nat [Some 1; None])
            (mkTensor [1; 2]%nat [3 # 4; 1 # 4])
            (mkTensor [1; 2]%nat [Some true; None])), image, mask00.
  repeat split; assumption || reflexivity.
Defined.

(** ** The shape of the predictions *)

Section InferenceShapes.

Context {F : Type} `{Dtype F}.
Variable model : tensor F -> tensor F.
Variable scan : @volume F.
Hypothesis model_shape : forall x, shape (model x) = shape x.
Hypothesis model_size : forall x, length (data (model x)) = length (data x).

Lemma slice_at_wf (i : nat) : wf_tensor (slice_at scan i).
Proof.
  unfold wf_tensor, slice_at. cbn [data shape numel_of fold_right].
  rewrite length_map, length_seq. lia.
Qed.

Lemma slice_probabilities_shape (i : nat) (prob : tensor F) :
  slice_probabilities model scan i = Ok prob ->
  shape prob = [vol_h scan; vol_w scan] /\ wf_tensor prob.
Proof.
  intros E. unfold slice_probabilities in E.
  destruct (index00_shape _ E) as (n & c & Es & Ed).
  rewrite model_shape in Es. cbn [unsqueeze0 shape slice_at] in Es.
  injection Es as _ _ Es. split; [symmetry; exact Es|].
  unfold wf_tensor. rewrite Ed, length_firstn, model_size.
  cbn [unsqueeze0 data]. rewrite (slice_at_wf i), <- Es.
  cbn [slice_at shape]. lia.
Qed.

Lemma inference_shapes :
  exists preds,
    inference model scan = Ok preds
    /\ length preds = vol_d scan
    /\ forall i p, nth_error preds i = Some p ->
         shape p = [vol_h scan; vol_w scan] /\ wf_tensor p.
Proof.
  destruct (@inference_from_returns F _ model scan (seq 0 (vol_d scan)) [])
    as (preds & E).
  { intros x (n & c & s & Es). exists n, c, s. rewrite model_shape. exact Es. }
  exists preds. split; [exact E|].
  apply inference_from_inv in E. destruct E as (new & -> & Ln & Hn).
  cbn [app]. rewrite length_seq in Ln. split; [exact Ln|].
  intros i p Ep.
  assert (Hi : (i < vol_d scan)%nat).
  { rewrite <- Ln. apply nth_error_Some. congruence. }
  destruct (Hn i i) as (prob & Eprob & Enew).
  { rewrite (nth_error_nth' _ 0%nat) by (rewrite length_seq; exact Hi).
    rewrite seq_nth by exact Hi. reflexivity. }
  rewrite Enew in Ep. injection Ep as <-.
  destruct (slice_probabilities_shape _ Eprob) as [Es W].
  split; [exact Es|].
  unfold wf_tensor, gt_scalar, tensor_map in *. cbn [data shape].
  rewrite length_map. exact W.
Qed.

End InferenceShapes.

(** X11. With a model that keeps the shape and the number of entries of its
    input, the inference loop returns one boolean mask per slice of the
    scan, each well-formed and of the shape (h, w) of a slice; on a scan
    without slices it returns the empty list. *)
Theorem inference_masks_have_slice_shape {F : Type} `{Dtype F}
    (model : tensor F -> tensor F) (scan : @volume F) :
  (forall x, shape (model x) = shape x) ->
  (forall x, length (data (model x)) = length (data x)) ->
  exists preds,
    inference model scan = Ok preds
    /\ length preds = vol_d scan
    /\ forall i p, nth_error preds i = Some p ->
         shape p = [vol_h scan; vol_w scan] /\ wf_tensor p.
Proof.
  intros Hs Hl. apply inference_shapes; assumption.
Qed.

Lemma inference_masks_have_slice_shape_witness :
  exists preds,
    inference (fun x => x) (mkVolume 1 2 2 [1 # 2; 3 # 4; 1; 0]) = Ok preds
    /\ length preds = 2%nat
    /\ forall i p, nth_error preds i = Some p ->
         shape p = [1; 2]%nat /\ wf_tensor p.
Proof.
  apply (@inference_masks_have_slice_shape Q Q_dtype (fun x => x)
           (mkVolume 1 2 2 [1 # 2; 3 # 4; 1; 0])); reflexivity.
Defined.

(** ** More on the Dice loss *)

Lemma sum_app (a b : list Q) : sum (a ++ b) == sum a + sum b.
Proof.
  induction a as [|x a IH]; cbn [app].
  - rewrite sum_nil. ring.
  - rewrite !sum_cons, IH. ring.
Qed.

Lemma sum_perm (a b : list Q) : Permutation a b -> sum a == sum b.
Proof.
  induction 1 as [|x a b _ IH|x y a|a b c _ IH1 _ IH2].
  - reflexivity.
  - rewrite !sum_cons, IH. reflexivity.
  - rewrite !sum_cons. ring.
  - rewrite IH1. exact IH2.
Qed.

Lemma sum_zero_iff (l : list Q) :
  Forall (fun x => 0 <= x) l -> (sum l == 0 <-> Forall is_zero l).
Proof.
  intros Hl. split; [|apply sum_zeros].
  induction Hl as [|x l Hx Hl IH]; intros E; [constructor|].
  rewrite sum_cons in E. pose proof (sum_nonneg Hl) as Hs.
  constructor; [unfold is_zero; lra|]. apply IH. lra.
Qed.

Lemma map2_app (a a' b b' : list Q) :
  length a = length b ->
  map2 Qmult (a ++ a') (b ++ b') = map2 Qmult a b ++ map2 Qmult a' b'.
Proof.
  revert b; induction a as [|x a IH]; intros [|y b] L; try discriminate L.
  - reflexivity.
  - cbn [app map2]. rewrite IH by (simpl in L; lia). reflexivity.
Qed.

Lemma map2_pairs (l : list (Q * Q)) :
  map2 Qmult (map fst l) (map snd l) = map (fun p => fst p * snd p) l.
Proof.
  induction l as [|p l IH]; cbn [map map2]; [reflexivity|].
  rewrite IH. reflexivity.
Qed.

(** The loss is a function of three sums. *)
Lemma forward_from_sums (P M P' M' : tensor Q) :
  length (data P) = length (data M) ->
  length (data P') = length (data M') ->
  sum (map2 Qmult (data P') (data M')) == sum (map2 Qmult (data P) (data M)) ->
  sum (data P') == sum (data P) -> sum (data M') == sum (data M) ->
  exists v v', DiceLoss.forward P M = Ok v /\ DiceLoss.forward P' M' = Ok v'
               /\ v' == v.
Proof.
  intros L L' Ec Ep Em.
  eexists; eexists. split; [apply (forward_exact _ _ L)|].
  split; [apply (forward_exact _ _ L')|].
  rewrite Ec, Ep, Em. reflexivity.
Qed.

(** X12. On equal-shaped arrays without negative entries the loss is at most
    1, and it is exactly 1 if and only if the arrays do not overlap: every
    product of corresponding entries is zero. *)
Theorem forward_one_iff_disjoint (P M : tensor Q) :
  wf_tensor P -> wf_tensor M -> shape P = shape M ->
  Forall (fun x => 0 <= x) (data P) -> Forall (fun x => 0 <= x) (data M) ->
  exists v,
    DiceLoss.forward P M = Ok v /\ v <= 1
    /\ (v == 1 <-> Forall is_zero (map2 Qmult (data P) (data M))).
Proof.
  intros WP WM S HP HM.
  pose proof (same_shape_same_length WP WM S) as L.
  eexists; split; [apply (forward_exact _ _ L)|].
  pose proof (map2_nonneg HP HM) as Hc.
  rewrite <- (sum_zero_iff Hc).
  pose proof (sum_nonneg Hc) as H0.
  pose proof (sum_nonneg HP) as H1. pose proof (sum_nonneg HM) as H2.
  assert (He : 0 < Spec.epsilon) by reflexivity.
  set (c := sum (map2 Qmult (data P) (data M))) in *.
  set (d := sum (data P) + sum (data M) + Spec.epsilon).
  assert (Hd : 0 < d) by (unfold d; lra).
  assert (Hq : 0 <= 2 * c / d) by (apply Qle_shift_div_l; lra).
  split; [lra|]. split.
  - intros E. assert (Z : 2 * c / d == 0) by lra.
    assert (Z' : 2 * c == 0).
    { setoid_replace (2 * c) with (2 * c / d * d) by (field; lra).
      rewrite Z. ring. }
    lra.
  - intros E. rewrite E. unfold Qdiv. ring.
Qed.

Lemma forward_one_iff_disjoint_witness :
  exists v,
    DiceLoss.forward (tensor_1d [3; 0; 0]) (tensor_1d [0; 5; 0]) = Ok v
    /\ v <= 1
    /\ (v == 1 <-> Forall is_zero (map2 Qmult [3; 0; 0] [0; 5; 0])).
Proof.
  apply (@forward_one_iff_disjoint (tensor_1d [3; 0; 0])
           (tensor_1d [0; 5; 0]));
    try reflexivity; simpl; repeat constructor; discriminate.
Defined.

(** X13. Entries that are zero in both arrays do not count: appending to
    prediction and mask equally many zeros leaves the loss unchanged. *)
Theorem forward_ignores_padding (P M P' M' : tensor Q) (zp zm : list Q) :
  length (data P) = length (data M) -> length zp = length zm ->
  Forall is_zero zp -> Forall is_zero zm ->
  data P' = data P ++ zp -> data M' = data M ++ zm ->
  exists v v', DiceLoss.forward P M = Ok v /\ DiceLoss.forward P' M' = Ok v'
               /\ v' == v.
Proof.
  intros L Lz Zp Zm EP EM.
  apply forward_from_sums; rewrite ?EP, ?EM, ?length_app; try lia.
  - rewrite (@map2_app _ zp _ zm L), sum_app.
    rewrite (sum_zeros (map2_zeros zm Zp)). ring.
  - rewrite sum_app, (sum_zeros Zp). ring.
  - rewrite sum_app, (sum_zeros Zm). ring.
Qed.

Lemma forward_ignores_padding_witness :
  exists v v',
    DiceLoss.forward (tensor_1d [1 # 2; 1]) (tensor_1d [1; 0]) = Ok v
    /\ DiceLoss.forward (mkTensor [2; 2]%nat [1 # 2; 1; 0; 0])
                        (mkTensor [2; 2]%nat [1; 0; 0; 0]) = Ok v'
    /\ v' == v.
Proof.
  apply (@forward_ignores_padding (tensor_1d [1 # 2; 1]) (tensor_1d [1; 0])
           (mkTensor [2; 2]%nat [1 # 2; 1; 0; 0])
           (mkTensor [2; 2]%nat [1; 0; 0; 0]) [0; 0] [0; 0]);
    try reflexivity; repeat constructor.
Defined.

(** X14. The loss does not depend on the order of the entries: rearranging
    the pairs (prediction entry, mask entry) in any way, as a different
    flattening order would, leaves it unchanged. *)
Theorem forward_order_independent (l l' : list (Q * Q)) :
  Permutation l l' ->
  exists v v',
    DiceLoss.forward (tensor_1d (map fst l)) (tensor_1d (map snd l)) = Ok v
    /\ DiceLoss.forward (tensor_1d (map fst l')) (tensor_1d (map snd l'))
       = Ok v'
    /\ v' == v.
Proof.
  intros Hp. apply forward_from_sums; cbn [tensor_1d data].
  - rewrite !length_map. reflexivity.
  - rewrite !length_map. reflexivity.
  - rewrite !map2_pairs. apply sum_perm, Permutation_map, Permutation_sym, Hp.
  - apply sum_perm, Permutation_map, Permutation_sym, Hp.
  - apply sum_perm, Permutation_map, Permutation_sym, Hp.
Qed.

Lemma forward_order_independent_witness :
  exists v v',
    DiceLoss.forward (tensor_1d [1 # 2; 1; 0]) (tensor_1d [1; 0; 1]) = Ok v
    /\ DiceLoss.forward (tensor_1d [1; 1 # 2; 0]) (tensor_1d [0; 1; 1])
       = Ok v'
    /\ v' == v.
Proof.
  apply (@forward_order_independent
           [(1 # 2, 1); (1, 0); (0, 1)] [(1, 0); (1 # 2, 1); (0, 1)]).
  apply perm_swap.
Defined.

Lemma inject_nat_succ (n : nat) :
  inject_Z (Z.of_nat (S n)) == inject_Z (Z.of_nat n) + 1.
Proof.
  rewrite Nat2Z.inj_succ. unfold Z.succ. rewrite inject_Z_plus. reflexivity.
Qed.

Lemma binary_is_one (x : Q) :
  binary x -> (Qeq_bool x 1 = true /\ x == 1) \/ (Qeq_bool x 1 = false /\ x == 0).
Proof.
  intros [E|E]; [right | left]; split; try exact E.
  - destruct (Qeq_bool x 1) eqn:B; [|reflexivity].
    apply Qeq_bool_iff in B. rewrite E in B. discriminate B.
  - apply Qeq_bool_iff. exact E.
Qed.

Lemma binary_sum_cardinal (l : list Q) :
  Forall binary l -> sum l == inject_Z (Z.of_nat (cardinal l)).
Proof.
  induction 1 as [|x l Hx _ IH]; [reflexivity|].
  rewrite sum_cons, IH. unfold cardinal. cbn [filter].
  destruct (binary_is_one Hx) as [[-> E]|[-> E]]; cbn [length];
    rewrite E, ?inject_nat_succ; ring.
Qed.

Lemma binary_sum_overlap (a b : list Q) :
  Forall binary a -> Forall binary b ->
  sum (map2 Qmult a b) == inject_Z (Z.of_nat (overlap a b)).
Proof.
  intros Ha; revert b; induction Ha as [|x a Hx _ IH]; intros b Hb.
  - reflexivity.
  - destruct Hb as [|y b Hy Hb]; [reflexivity|].
    cbn [map2 overlap]. rewrite sum_cons, (IH b Hb).
    destruct (binary_is_one Hx) as [[-> Ex]|[-> Ex]];
      destruct (binary_is_one Hy) as [[-> Ey]|[-> Ey]];
      cbn [andb Nat.add]; rewrite Ex, Ey, ?inject_nat_succ; ring.
Qed.

(** X15. On binary masks the code computes the loss the notebook's text
    defines on sets: one minus twice the number of positions where both masks
    are one, over the number of ones of the first plus the number of ones of
    the second (plus 1e-8). *)
Theorem forward_is_set_dice (P M : tensor Q) :
  wf_tensor P -> wf_tensor M -> shape P = shape M ->
  Forall binary (data P) -> Forall binary (data M) ->
  exists v, DiceLoss.forward P M = Ok v
            /\ v == set_dice_loss (data P) (data M).
Proof.
  intros WP WM S HP HM.
  pose proof (same_shape_same_length WP WM S) as L.
  eexists; split; [apply (forward_exact _ _ L)|].
  unfold set_dice_loss.
  rewrite (binary_sum_overlap HP HM), (binary_sum_cardinal HP),
    (binary_sum_cardinal HM).
  reflexivity.
Qed.

Lemma forward_is_set_dice_witness :
  exists v,
    DiceLoss.forward (tensor_1d [1; 1; 0; 0]) (tensor_1d [1; 0; 0; 1]) = Ok v
    /\ v == set_dice_loss [1; 1; 0; 0] [1; 0; 0; 1].
Proof.
  apply (@forward_is_set_dice (tensor_1d [1; 1; 0; 0])
           (tensor_1d [1; 0; 0; 1]));
    try reflexivity; simpl;
    repeat constructor; first [left; reflexivity | right; reflexivity].
Defined.

(** ** The overall score on the validation set *)

Lemma sum_concat (ls : list (list Q)) : sum (concat ls) == sum (map sum ls).
Proof.
  induction ls as [|l ls IH]; cbn [concat map].
  - reflexivity.
  - rewrite sum_app, sum_cons, IH. reflexivity.
Qed.

Lemma np_array_data {A : Type} (ts : list (tensor A)) (t : tensor A) :
  np.array ts = NpOk t -> data t = concat (map (@data A) ts).
Proof.
  unfold np.array. destruct ts as [|t0 ts].
  - intros E; injection E as <-. reflexivity.
  - destruct (forallb _ _); [|discriminate].
    intros E; injection E as <-. reflexivity.
Qed.

Section Pooled.

Variable model : tensor Q -> tensor Q.

Lemma predict_all_from (ds : list (tensor Q * tensor Q))
    (preds labels : list (tensor Q)) :
  fold_left
    (fun acc sample =>
       let '(preds, labels) := acc in
       let '(slice, label) := sample in
       let pred := model (unsqueeze0 slice) in
       (preds ++ [pred], labels ++ [label]))
    ds (preds, labels)
  = (preds ++ map (prediction model) ds, labels ++ map snd ds).
Proof.
  revert preds labels; induction ds as [|[slice label] ds IH];
    intros preds labels; cbn [fold_left map].
  - rewrite !app_nil_r. reflexivity.
  - rewrite IH, <- !app_assoc. reflexivity.
Qed.

Lemma predict_all_maps (ds : list (tensor Q * tensor Q)) :
  predict_all model ds = (map (prediction model) ds, map snd ds).
Proof. apply (predict_all_from ds [] []). Qed.

Lemma pooled_products (ds : list (tensor Q * tensor Q)) :
  (forall s, In s ds -> length (data ((prediction model) s)) = length (data (snd s))) ->
  length (concat (map (@data Q) (map (prediction model) ds)))
  = length (concat (map (@data Q) (map snd ds)))
  /\ map2 Qmult (concat (map (@data Q) (map (prediction model) ds)))
                (concat (map (@data Q) (map snd ds)))
     = concat (map (fun s => map2 Qmult (data ((prediction model) s)) (data (snd s)))
                   ds).
Proof.
  induction ds as [|s ds IH]; intros Hl; cbn [map concat].
  - split; reflexivity.
  - destruct IH as [IL IM]; [intros s' Hs'; apply Hl; right; exact Hs'|].
    assert (Ls : length (data ((prediction model) s)) = length (data (snd s)))
      by (apply Hl; left; reflexivity).
    split.
    + rewrite !length_app, IL, Ls. reflexivity.
    + rewrite (@map2_app _ _ _ _ Ls), IM. reflexivity.
Qed.

End Pooled.

Lemma dice_score_exact (P M : tensor Q) :
  length (data P) = length (data M) ->
  dice_score P M
  = Ok (1 - (1 - (2 * sum (map2 Qmult (data P) (data M)))
                 / (sum (data P) + sum (data M) + Spec.epsilon)))
  /\ dice_score_unsqueezed P M = dice_score P M.
Proof.
  intros L. split; [|reflexivity].
  unfold dice_score. rewrite (forward_exact _ _ L). reflexivity.
Qed.

(** X16. The overall Dice score of the evaluation cell is pooled over the
    whole validation set: with the predictions and the labels stacked by
    [np.array], it is twice the sum over the samples of the overlaps, over
    the sum of all prediction entries plus the sum of all label entries plus
    1e-8 (it is not a mean of per-sample scores).  The second way the cell
    computes it, on [labels.unsqueeze(0).float()], gives the same value. *)
Theorem overall_dice_is_pooled (model : tensor Q -> tensor Q)
    (val_dataset : list (tensor Q * tensor Q)) (preds labels : tensor Q) :
  (forall s, In s val_dataset ->
             length (data (prediction model s)) = length (data (snd s))) ->
  np.array (fst (predict_all model val_dataset)) = NpOk preds ->
  np.array (snd (predict_all model val_dataset)) = NpOk labels ->
  exists score,
    dice_score preds labels = Ok score
    /\ dice_score_unsqueezed preds labels = Ok score
    /\ score
       == 2 * sum (map (fun s => sum (map2 Qmult (data (prediction model s))
                                                 (data (snd s))))
                       val_dataset)
          / (sum (map (fun s => sum (data (prediction model s))) val_dataset)
             + sum (map (fun s => sum (data (snd s))) val_dataset)
             + Spec.epsilon).
Proof.
  intros Hl EP EL.
  rewrite predict_all_maps in EP, EL. cbn [fst snd] in EP, EL.
  apply np_array_data in EP. apply np_array_data in EL.
  destruct (pooled_products model val_dataset Hl) as [L Em].
  rewrite <- EP, <- EL in L, Em.
  destruct (dice_score_exact _ _ L) as [Es Eu]. rewrite Eu, Es.
  eexists; split; [reflexivity|]. split; [reflexivity|].
  rewrite Em, EP, EL, !sum_concat, !map_map.
  unfold Qdiv. ring.
Qed.

Lemma overall_dice_is_pooled_witness :
  exists score,
    dice_score (mkTensor [2; 1; 1; 1; 2]%nat [1 # 2; 1; 0; 1])
               (mkTensor [2; 1; 1; 2]%nat [1; 0; 0; 1]) = Ok score
    /\ dice_score_unsqueezed (mkTensor [2; 1; 1; 1; 2]%nat [1 # 2; 1; 0; 1])
                             (mkTensor [2; 1; 1; 2]%nat [1; 0; 0; 1])
       = Ok score
    /\ score
       == 2 * sum [sum (map2 Qmult [1 # 2; 1] [1; 0]);
                   sum (map2 Qmult [0; 1] [0; 1])]
          / (sum [sum [1 # 2; 1]; sum [0; 1]]
             + sum [sum [1; 0]; sum [0; 1]] + Spec.epsilon).
Proof.
  apply (@overall_dice_is_pooled (fun x => x)
           [(mkTensor [1; 1; 2]%nat [1 # 2; 1], mkTensor [1; 1; 2]%nat [1; 0]);
            (mkTensor [1; 1; 2]%nat [0; 1], mkTensor [1; 1; 2]%nat [0; 1])]).
  - intros s [<-|[<-|[]]]; reflexivity.
  - vm_compute. reflexivity.
  - vm_compute. reflexivity.
Defined.

(** ** The slices of the cropped scan *)

(** X17. What the inference loop sees of a scan: slice k of the cropped scan
    has shape (h - 64, w - 64), and its entry in row i and column j is the
    voxel (i + 32, j + 32, k) of the scan, the centre of slice k. *)
Theorem slice_of_crop {F : Type} `{Dtype F} (v : @volume F) (i j k : nat) :
  (i < vol_h v - 64)%nat -> (j < vol_w v - 64)%nat -> (k < vol_d v)%nat ->
  shape (slice_at (crop v) k) = [vol_h v - 64; vol_w v - 64]%nat
  /\ wf_tensor (slice_at (crop v) k)
  /\ nth (i * (vol_w v - 64) + j) (data (slice_at (crop v) k)) (of_int 0)
     = voxel v (i + 32) (j + 32) k.
Proof.
  intros Hi Hj Hk. split; [reflexivity|]. split; [apply slice_at_wf|].
  rewrite <- (crop_voxel v Hi Hj Hk).
  unfold slice_at, voxel. cbn [data].
  assert (Hij : (i * (vol_w v - 64) + j
                 < vol_h (crop v) * vol_w (crop v))%nat)
    by (cbn [crop vol_h vol_w]; nia).
  rewrite (nth_indep _ (of_int 0)
             (nth (0 * vol_d (crop v) + k) (voxels (crop v)) (of_int 0)))
    by (rewrite length_map, length_seq; exact Hij).
  rewrite (map_nth (fun n => nth (n * vol_d (crop v) + k) (voxels (crop v))
                               (of_int 0))).
  rewrite seq_nth by exact Hij. reflexivity.
Qed.

Lemma slice_of_crop_witness :
  nth (0 * (66 - 64) + 1)
    (data (slice_at
             (crop (mkVolume 65 66 2
                      (map (fun n => inject_Z (Z.of_nat n))
                           (seq 0 (65 * 66 * 2)))))
             1))
    (of_int 0)
  = voxel (mkVolume 65 66 2
             (map (fun n => inject_Z (Z.of_nat n)) (seq 0 (65 * 66 * 2))))
      32 33 1.
Proof.
  apply (@slice_of_crop Q Q_dtype
           (mkVolume 65 66 2
              (map (fun n => inject_Z (Z.of_nat n)) (seq 0 (65 * 66 * 2))))
           0%nat 1%nat 1%nat); cbn [vol_h vol_w vol_d]; lia.
Defined.
